(** * PrivateMessage: the zero-width steganography codec of [App.tsx]

    A shallow embedding of the codec of [src/App.tsx] in its three editions
    (the first, without a cipher; the appending one, with a PIN; the one with
    sentinels and interleaving), together with the properties of the bit
    codec, of the splice, of the sentinel scan and of the two handlers.

    JavaScript strings are sequences of UTF-16 code units: a string is a
    [list Z] whose elements lie in [0, 65536).  The numbers the codec handles
    are integers or [NaN]; they are [option Z], [None] standing for [NaN]. *)

From Stdlib Require Import List ZArith Bool Lia.
Import ListNotations.

Local Open Scope Z_scope.

(** ** The JavaScript built-ins the codec calls *)

Module JS.

Definition str := list Z.

(** [None] is [NaN]. *)
Definition number := option Z.

Definition is_code_unit (u : Z) : bool := (0 <=? u) && (u <? 65536).

(** The lists that are JavaScript strings. *)
Definition is_string (s : str) : bool := forallb is_code_unit s.

Fixpoint str_eqb (a b : str) : bool :=
  match a, b with
  | [], [] => true
  | x :: a', y :: b' => (x =? y) && str_eqb a' b'
  | _, _ => false
  end.

Definition is_high_surrogate (u : Z) : bool := (55296 <=? u) && (u <=? 56319).
Definition is_low_surrogate (u : Z) : bool := (56320 <=? u) && (u <=? 57343).

(** [Array.from(text)]: the string iterator yields one element per code
    point, so a high surrogate followed by a low surrogate is ONE element of
    two code units; every other code unit is an element of its own. *)
Fixpoint Array_from (s : str) : list str :=
  match s with
  | [] => []
  | h :: t =>
      match t with
      | l :: t' =>
          if is_high_surrogate h && is_low_surrogate l
          then [h; l] :: Array_from t'
          else [h] :: Array_from t
      | [] => [[h]]
      end
  end.

(** [s.charCodeAt(i)]: the code unit at index [i], [NaN] out of range. *)
Definition charCodeAt (s : str) (i : nat) : number := nth_error s i.

Fixpoint pos_digits (p : positive) : str :=
  match p with
  | xH => [49]
  | xO q => pos_digits q ++ [48]
  | xI q => pos_digits q ++ [49]
  end.

(** [n.toString(2)] on an integer or [NaN]. *)
Definition toString2 (n : number) : str :=
  match n with
  | None => [78; 97; 78]
  | Some 0 => [48]
  | Some (Zpos p) => pos_digits p
  | Some (Zneg p) => 45 :: pos_digits p
  end.

(** [s.padStart(len, c)] for a filler [c] of one code unit. *)
Definition padStart (s : str) (len : nat) (c : Z) : str :=
  repeat c (len - length s) ++ s.

(** [parts.join('')]. *)
Definition join (parts : list str) : str := concat parts.

(** [s.slice(a, b)] and [s.slice(a)] for indices that are not negative. *)
Definition slice (s : str) (a b : nat) : str := firstn (b - a) (skipn a s).
Definition slice_from (s : str) (a : nat) : str := skipn a s.

Definition clamp (len : nat) (i : Z) : nat := Nat.min (Z.to_nat i) len.

(** [s.substring(a, b)]: both indices are clamped to [0, length], and
    swapped when the first is the larger. *)
Definition substring (s : str) (a b : Z) : str :=
  let a' := clamp (length s) a in
  let b' := clamp (length s) b in
  slice s (Nat.min a' b') (Nat.max a' b').

Fixpoint startsWith (s needle : str) {struct needle} : bool :=
  match needle, s with
  | [], _ => true
  | n :: needle', c :: s' => (c =? n) && startsWith s' needle'
  | _ :: _, [] => false
  end.

Fixpoint indexOf_from (s needle : str) (i : Z) : Z :=
  if startsWith s needle then i
  else match s with
       | [] => -1
       | _ :: t => indexOf_from t needle (i + 1)
       end.

(** [s.indexOf(needle)]: the first position, [-1] when there is none. *)
Definition indexOf (s needle : str) : Z := indexOf_from s needle 0.

(** The code units [parseInt] skips before the number (white space and line
    terminators). *)
Definition is_white_space (u : Z) : bool :=
  ((9 <=? u) && (u <=? 13)) || (u =? 32) || (u =? 160) || (u =? 5760)
  || ((8192 <=? u) && (u <=? 8202)) || (u =? 8232) || (u =? 8233)
  || (u =? 8239) || (u =? 8287) || (u =? 12288) || (u =? 65279).

Fixpoint skip_white_space (s : str) : str :=
  match s with
  | c :: t => if is_white_space c then skip_white_space t else s
  | [] => []
  end.

Definition is_binary_digit (u : Z) : bool := (u =? 48) || (u =? 49).

(** The value of the longest prefix of binary digits, most significant
    digit first, from the value [acc] of the digits already read. *)
Fixpoint digits_value (acc : Z) (s : str) : Z :=
  match s with
  | c :: t => if is_binary_digit c then digits_value (2 * acc + (c - 48)) t
              else acc
  | [] => acc
  end.

Definition parse_digits (s : str) : number :=
  match s with
  | c :: _ => if is_binary_digit c then Some (digits_value 0 s) else None
  | [] => None
  end.

(** [parseInt(s, 2)]: leading white space, an optional sign, then the
    longest run of binary digits; [NaN] when there is no digit.  The value is
    exact, as it is in JavaScript up to 53 digits; [binaryToText] passes
    slices of 16. *)
Definition parseInt2 (s : str) : number :=
  match skip_white_space s with
  | 45 :: t => option_map Z.opp (parse_digits t)
  | 43 :: t => parse_digits t
  | t => parse_digits t
  end.

(** [ToUint16]: [NaN] becomes 0, an integer wraps around modulo 2^16. *)
Definition ToUint16 (n : number) : Z :=
  match n with
  | None => 0
  | Some z => z mod 65536
  end.

(** [String.fromCharCode(n)]. *)
Definition fromCharCode (n : number) : str := [ToUint16 n].

End JS.

Import JS.

(** ** The bit codec (shared by every edition of [App.tsx]) *)

(** [textToBinary]: 16 binary digits for the first code unit of every
    element of [Array.from(text)]. *)
Definition textToBinary (text : str) : str :=
  join (map (fun char => padStart (toString2 (charCodeAt char 0)) 16 48)
            (Array_from text)).

(** The [for] loop of [binaryToText]; [fuel] bounds the iterations, and
    [length binary] of them are always enough since [i] grows by 16. *)
Fixpoint binaryToText_loop (fuel : nat) (binary : str) (i : nat)
    (chars : list str) : list str :=
  match fuel with
  | O => chars
  | S fuel' =>
      if (i <? length binary)%nat then
        let byte := slice binary i (i + 16) in
        let chars' :=
          if (length byte =? 16)%nat
          then chars ++ [fromCharCode (parseInt2 byte)]
          else chars in
        binaryToText_loop fuel' binary (i + 16) chars'
      else chars
  end.

Definition binaryToText (binary : str) : str :=
  join (binaryToText_loop (length binary) binary 0 []).

(** ** The cipher library

    [declare const CryptoJS: any]: the page loads CryptoJS beside the
    application, and the handlers call it four ways.  It is a parameter of the
    model.  [AES.encrypt] with a passphrase draws a fresh random salt on every
    call; the draw is the explicit argument of type [Entropy].  A call that
    throws returns [None]. *)
Record CryptoJS_API : Type := {
  Entropy : Type;
  CipherParams : Type;
  WordArray : Type;
  (** [CryptoJS.AES.encrypt(message, passphrase)] *)
  AES_encrypt : Entropy -> str -> str -> option CipherParams;
  (** [cipherParams.toString()] *)
  CipherParams_toString : CipherParams -> str;
  (** [CryptoJS.AES.decrypt(ciphertext, passphrase)] *)
  AES_decrypt : str -> str -> option WordArray;
  (** [wordArray.toString(CryptoJS.enc.Utf8)] *)
  WordArray_toString_Utf8 : WordArray -> option str
}.

(** ** The state of the component and its messages *)

(** The texts [setError] receives.  The failure names of the specification
    are used for the three failures of the reveal path. *)
Inductive Message : Type :=
| NoError           (* '' *)
| EnterSecret       (* '請輸入秘密訊息' *)
| EnterCover        (* '請輸入掩護文字' *)
| EnterPin          (* '請輸入 4 位數字 PIN 碼' *)
| EncryptFailed     (* '加密過程發生錯誤' *)
| EnterInput        (* '請輸入待解析的文字' *)
| NotFound          (* '找不到完整或有效的隱藏訊息'; appending edition:
                       '找不到隱藏的秘密訊息' *)
| EmptyPayload      (* '隱藏訊息內容為空' *)
| WrongKeyOrCorrupt (* '密碼錯誤，或訊息在傳輸中損壞'; appending edition:
                       '密碼錯誤，無法還原訊息' *).

(** The [useState] cells the two handlers read and write ([activeTab] and
    [copied] are touched by neither). *)
Record AppState : Type := mkState {
  secretMessage : str;
  coverText : str;
  encryptPin : str;
  decryptPin : str;
  inputText : str;
  resultText : str;
  error : Message
}.

Definition setError (m : Message) (st : AppState) : AppState :=
  mkState (secretMessage st) (coverText st) (encryptPin st) (decryptPin st)
          (inputText st) (resultText st) m.

Definition setResultText (r : str) (st : AppState) : AppState :=
  mkState (secretMessage st) (coverText st) (encryptPin st) (decryptPin st)
          (inputText st) r (error st).

(** [!s] on a string: only the empty string is falsy. *)
Definition is_empty (s : str) : bool :=
  match s with
  | [] => true
  | _ :: _ => false
  end.

Definition is_digit (u : Z) : bool := (48 <=? u) && (u <=? 57).

(** [/^\d+$/.test(s)] *)
Definition test_digits (s : str) : bool := negb (is_empty s) && forallb is_digit s.

(** The negation of the guard
    [pin.length !== 4 || !/^\d+$/.test(pin)]. *)
Definition valid_pin (pin : str) : bool :=
  (length pin =? 4)%nat && test_digits pin.

(** The body of the [try] block of [handleDecrypt], from [binaryToText] on,
    with its [catch]: the same in both editions. *)
Definition tryDecrypt (api : CryptoJS_API) (st : AppState) (binary : str)
    : AppState :=
  let caught := setResultText [] (setError WrongKeyOrCorrupt st) in
  let encryptedText := binaryToText binary in
  match AES_decrypt api encryptedText (decryptPin st) with
  | None => caught
  | Some bytes =>
      match WordArray_toString_Utf8 api bytes with
      | None => caught
      | Some originalText =>
          if is_empty originalText then caught
          else setResultText originalText st
      end
  end.

(** ** [src/App.tsx]: sentinels and interleaving *)

Module InterleaveEdition.

Definition ZW_ZERO : str := [8204].   (* '\u200C' *)
Definition ZW_ONE : str := [8205].    (* '\u200D' *)
Definition ZW_START : str := [8288].  (* '\u2060' *)
Definition ZW_END : str := [65279].   (* '\uFEFF' *)

(** [ZW_START + Array.from(binary).map(...).join('') + ZW_END] *)
Definition hiddenChars (binary : str) : str :=
  ZW_START
  ++ join (map (fun bit => if str_eqb bit [48] then ZW_ZERO else ZW_ONE)
               (Array_from binary))
  ++ ZW_END.

(** The expression bound to [result]:
    [coverText.length > 0 ? coverText[0] + hiddenChars + coverText.slice(1)
                          : hiddenChars]. *)
Definition interleave (coverText hiddenChars : str) : str :=
  if (0 <? length coverText)%nat
  then firstn 1 coverText ++ hiddenChars ++ slice_from coverText 1
  else hiddenChars.

(** The sentinel scan of [handleDecrypt]: [None] when the guard on
    [startIdx] and [endIdx] fires, otherwise the string bound to [binary]. *)
Definition extractBinary (inputText : str) : option str :=
  let startIdx := indexOf inputText ZW_START in
  let endIdx := indexOf inputText ZW_END in
  if (startIdx =? -1) || (endIdx =? -1) || (endIdx <=? startIdx) then None
  else
    let zwContent := substring inputText (startIdx + 1) endIdx in
    Some (join (map (fun char => if str_eqb char ZW_ZERO then [48] else [49])
                    (filter (fun char => str_eqb char ZW_ZERO
                                         || str_eqb char ZW_ONE)
                            (Array_from zwContent)))).

Section Handlers.

Variable api : CryptoJS_API.

Definition handleEncrypt (rnd : Entropy api) (st : AppState) : AppState :=
  if is_empty (secretMessage st) then setError EnterSecret st
  else if is_empty (coverText st) then setError EnterCover st
  else if negb (valid_pin (encryptPin st)) then setError EnterPin st
  else
    let st := setError NoError st in
    match AES_encrypt api rnd (secretMessage st) (encryptPin st) with
    | None => setError EncryptFailed st
    | Some params =>
        let encrypted := CipherParams_toString api params in
        let binary := textToBinary encrypted in
        setResultText (interleave (coverText st) (hiddenChars binary)) st
    end.

Definition handleDecrypt (st : AppState) : AppState :=
  if is_empty (inputText st) then setError EnterInput st
  else if negb (valid_pin (decryptPin st)) then setError EnterPin st
  else
    let st := setError NoError st in
    match extractBinary (inputText st) with
    | None => setResultText [] (setError NotFound st)
    | Some binary =>
        if (length binary =? 0)%nat then setError EmptyPayload st
        else tryDecrypt api st binary
    end.

End Handlers.

End InterleaveEdition.

(** ** The appending edition: no sentinels, the run after the cover *)

Module AppendEdition.

Definition ZW_ZERO : str := [8203].   (* '\u200B' *)
Definition ZW_ONE : str := [8204].    (* '\u200C' *)

(** [Array.from(binary).map(...).join('')] *)
Definition hiddenChars (binary : str) : str :=
  join (map (fun bit => if str_eqb bit [48] then ZW_ZERO else ZW_ONE)
            (Array_from binary)).

(** [coverText + hiddenChars] *)
Definition append (coverText hiddenChars : str) : str :=
  coverText ++ hiddenChars.

(** [inputText.match(/[\u200B\u200C]/g)]: every code unit that is one of the
    two marks, in order, each a string of its own; [null] when there is
    none. *)
Definition match_marks (inputText : str) : option (list str) :=
  let found := filter (fun u => str_eqb [u] ZW_ZERO || str_eqb [u] ZW_ONE)
                      inputText in
  if is_empty found then None else Some (map (fun u => [u]) found).

Section Handlers.

Variable api : CryptoJS_API.

Definition handleEncrypt (rnd : Entropy api) (st : AppState) : AppState :=
  if is_empty (secretMessage st) then setError EnterSecret st
  else if is_empty (coverText st) then setError EnterCover st
  else if negb (valid_pin (encryptPin st)) then setError EnterPin st
  else
    let st := setError NoError st in
    match AES_encrypt api rnd (secretMessage st) (encryptPin st) with
    | None => setError EncryptFailed st
    | Some params =>
        let encrypted := CipherParams_toString api params in
        let binary := textToBinary encrypted in
        setResultText (append (coverText st) (hiddenChars binary)) st
    end.

Definition handleDecrypt (st : AppState) : AppState :=
  if is_empty (inputText st) then setError EnterInput st
  else if negb (valid_pin (decryptPin st)) then setError EnterPin st
  else
    let st := setError NoError st in
    match match_marks (inputText st) with
    | None => setResultText [] (setError NotFound st)
    | Some matches =>
        let binary :=
          join (map (fun char => if str_eqb char ZW_ZERO then [48] else [49])
                    matches) in
        tryDecrypt api st binary
    end.

End Handlers.

End AppendEdition.

(** ** The first edition of [src/App.tsx]: no PIN and no cipher

    The message itself goes through [textToBinary].  The marks, the run and
    the scan are those of the appending edition, character for character. *)

Module FirstEdition.

Definition handleEncrypt (st : AppState) : AppState :=
  if is_empty (secretMessage st) then setError EnterSecret st
  else if is_empty (coverText st) then setError EnterCover st
  else
    let st := setError NoError st in
    let binary := textToBinary (secretMessage st) in
    setResultText
      (AppendEdition.append (coverText st) (AppendEdition.hiddenChars binary))
      st.

(** [binaryToText] never throws, so the [catch] of the source is not
    reached. *)
Definition handleDecrypt (st : AppState) : AppState :=
  if is_empty (inputText st) then setError EnterInput st
  else
    let st := setError NoError st in
    match AppendEdition.match_marks (inputText st) with
    | None => setResultText [] (setError NotFound st)
    | Some matches =>
        let binary :=
          join (map (fun char => if str_eqb char AppendEdition.ZW_ZERO
                                 then [48] else [49])
                    matches) in
        setResultText (binaryToText binary) st
    end.

End FirstEdition.

(** ** Definitions that follow the words of the specification *)

Module Spec.

(** A bit stream, written the way [textToBinary] and the scan write it:
    ['0'] for a clear bit, ['1'] for a set one. *)
Definition bit_char (b : bool) : Z := if b then 49 else 48.
Definition render (bits : list bool) : str := map bit_char bits.

(** The value of a group of bits read most significant bit first. *)
Definition unit_msb (chunk : list bool) : Z :=
  fold_left (fun acc b => 2 * acc + Z.b2z b) chunk 0.

(** The [k]-th group of 16 bits of a stream. *)
Definition group16 (bits : list bool) (k : nat) : list bool :=
  firstn 16 (skipn (16 * k) bits).

(** The 16 bits of a code unit, most significant first. *)
Definition bits16 (u : Z) : list bool :=
  map (fun i => Z.testbit u (Z.of_nat (15 - i))) (seq 0 16).

(** No high surrogate is directly followed by a low surrogate: every code
    point of the text is one code unit. *)
Fixpoint no_surrogate_pair (s : str) : bool :=
  match s with
  | [] => true
  | h :: t =>
      match t with
      | l :: _ => negb (is_high_surrogate h && is_low_surrogate l)
                  && no_surrogate_pair t
      | [] => true
      end
  end.

(** The first position of a code unit in a text, if any. *)
Fixpoint first_position (c : Z) (s : str) : option nat :=
  match s with
  | [] => None
  | x :: t => if x =? c then Some O else option_map S (first_position c t)
  end.

End Spec.

Import Spec.

(** What [textToBinary] writes for one code unit. *)
Definition unit_digits (u : Z) : str := padStart (toString2 (Some u)) 16 48.

(** The text of one code point above U+FFFF: U+1F600, the surrogate pair
    D83D DE00. *)
Definition grinning_face : str := [55357; 56832].

(** ** Definitions for the scan, the splice and the handlers *)

Module Scan.

(** The code units strictly between positions [i] and [j] of a text. *)
Definition strictly_between (i j : nat) (s : str) : str :=
  firstn (j - i - 1) (skipn (i + 1) s).

(** The bits a text carries: [false] for every ZERO-MARK, [true] for every
    ONE-MARK, nothing for any other code unit. *)
Definition marks (zero one : Z) (s : str) : list bool :=
  flat_map (fun u => if u =? zero then [false]
                     else if u =? one then [true] else []) s.

(** A text with every code unit of the marker alphabet removed. *)
Definition is_marker (alphabet : str) (u : Z) : bool :=
  existsb (Z.eqb u) alphabet.
Definition strip_markers (alphabet : str) (s : str) : str :=
  filter (fun u => negb (is_marker alphabet u)) s.
Definition marker_free (alphabet : str) (s : str) : bool :=
  forallb (fun u => negb (is_marker alphabet u)) s.

(** What a handler hands to the presentation shell: the message it set, or,
    when it set none, the result text. *)
Definition outcome (st : AppState) : Message + str :=
  match error st with
  | NoError => inr (resultText st)
  | m => inl m
  end.

End Scan.

Import Scan.

Definition interleave_alphabet : str :=
  InterleaveEdition.ZW_ZERO ++ InterleaveEdition.ZW_ONE
  ++ InterleaveEdition.ZW_START ++ InterleaveEdition.ZW_END.

Definition append_alphabet : str :=
  AppendEdition.ZW_ZERO ++ AppendEdition.ZW_ONE.

(** ** Hiding then revealing *)

Module Envelope.

Definition is_base64_char (u : Z) : bool :=
  ((65 <=? u) && (u <=? 90)) || ((97 <=? u) && (u <=? 122))
  || ((48 <=? u) && (u <=? 57)) || (u =? 43) || (u =? 47) || (u =? 61).

(** A non-empty text over the Base64 alphabet: what the default formatter of
    the cipher library prints an envelope as. *)
Definition is_base64 (s : str) : bool :=
  negb (is_empty s) && forallb is_base64_char s.

(** The cipher library at one draw, message and passphrase: it seals the
    message into a Base64 envelope, and opens that envelope under the same
    passphrase to bytes that decode back to the message. *)
Definition seals_and_opens (api : CryptoJS_API) (rnd : Entropy api)
    (s p : str) : Prop :=
  exists params bytes,
    AES_encrypt api rnd s p = Some params
    /\ is_base64 (CipherParams_toString api params) = true
    /\ AES_decrypt api (CipherParams_toString api params) p = Some bytes
    /\ WordArray_toString_Utf8 api bytes = Some s.

(** [handleEncrypt] on the message [s], the PIN [p] and the cover, then, in
    the same component, the result pasted into the input field and
    [handleDecrypt] with the same PIN. *)
Definition seal_then_open (api : CryptoJS_API) (rnd : Entropy api)
    (s p cover : str) : Message + str :=
  let sealed :=
    InterleaveEdition.handleEncrypt api rnd
      (mkState s cover p [] [] [] NoError) in
  match outcome sealed with
  | inl m => inl m
  | inr carrier =>
      outcome (InterleaveEdition.handleDecrypt api
                 (mkState (secretMessage sealed) (coverText sealed)
                          (encryptPin sealed) p carrier
                          (resultText sealed) (error sealed)))
  end.

(** The same in the first edition, which has neither PIN nor cipher. *)
Definition hide_then_reveal (s cover : str) : Message + str :=
  let hidden :=
    FirstEdition.handleEncrypt (mkState s cover [] [] [] [] NoError) in
  match outcome hidden with
  | inl m => inl m
  | inr carrier =>
      outcome (FirstEdition.handleDecrypt
                 (mkState (secretMessage hidden) (coverText hidden)
                          (encryptPin hidden) (decryptPin hidden) carrier
                          (resultText hidden) (error hidden)))
  end.

(** A stand-in for the cipher library, to run the handlers on concrete
    inputs: the envelope is the passphrase followed by the message, and
    opening checks the passphrase and drops it.  It is not CryptoJS and no
    property of CryptoJS is drawn from it. *)
Definition plain_api : CryptoJS_API := {|
  Entropy := unit;
  CipherParams := str;
  WordArray := str;
  AES_encrypt := fun _ message passphrase => Some (passphrase ++ message);
  CipherParams_toString := fun params => params;
  AES_decrypt := fun ciphertext passphrase =>
    if startsWith ciphertext passphrase
    then Some (skipn (length passphrase) ciphertext)
    else None;
  WordArray_toString_Utf8 := fun bytes => Some bytes
|}.

End Envelope.

Import Envelope.

(** ** Further definitions: code points, the other editions, [clearAll] *)

Module Editions.

(** The first code unit of every element [Array.from] yields: the code units
    [textToBinary] reads. *)
Definition first_units (text : str) : str :=
  flat_map (firstn 1) (Array_from text).

(** [handleEncrypt] then [handleDecrypt] with the same PIN, in the appending
    edition. *)
Definition append_seal_then_open (api : CryptoJS_API) (rnd : Entropy api)
    (s p cover : str) : Message + str :=
  let sealed :=
    AppendEdition.handleEncrypt api rnd
      (mkState s cover p [] [] [] NoError) in
  match outcome sealed with
  | inl m => inl m
  | inr carrier =>
      outcome (AppendEdition.handleDecrypt api
                 (mkState (secretMessage sealed) (coverText sealed)
                          (encryptPin sealed) p carrier
                          (resultText sealed) (error sealed)))
  end.

End Editions.

Import Editions.

(** ** The companion script of [src/App.tsx] ([SHORTCUT_SCRIPT])

    The text of the constant is a program of its own, run by the automation
    host: it reads [args.shortcutParameter], asks with [prompt], tells with
    [alert] and returns with [completion].  A run is a function of the input
    and of the answers to the prompts ([None] for a prompt that was
    cancelled). *)

Module ShortcutScript.

(** [ToInt32], through which both operands of [^] go. *)
Definition ToInt32 (n : number) : Z :=
  match n with
  | None => 0
  | Some z => (z + 2147483648) mod 4294967296 - 2147483648
  end.

(** [a ^ b] *)
Definition bitxor (a b : number) : number :=
  Some (Z.lxor (ToInt32 a) (ToInt32 b)).

(** [array.map((c, i) => f(c, i))], from the index [i] on. *)
Fixpoint map_indexed {A B : Type} (f : A -> nat -> B) (l : list A) (i : nat)
    : list B :=
  match l with
  | [] => []
  | x :: t => f x i :: map_indexed f t (S i)
  end.

(** [Array.from(text).map((c, i) =>
       String.fromCharCode(c.charCodeAt(0) ^ pin.charCodeAt(i % 4))).join('')]:
    the cipher of the script, the same expression for both directions. *)
Definition xor_cipher (text pin : str) : str :=
  join (map_indexed
          (fun c i => fromCharCode
                        (bitxor (charCodeAt c 0) (charCodeAt pin (i mod 4))))
          (Array_from text) 0).

(** [s.substr(i, n)] for an index that is not negative. *)
Definition substr (s : str) (i n : nat) : str := firstn n (skipn i s).

(** The [for] loop of the decryption mode: unlike [binaryToText] it has no
    check of the length of the group. *)
Fixpoint decode_loop (fuel : nat) (binary : str) (i : nat) (encrypted : str)
    : str :=
  match fuel with
  | O => encrypted
  | S fuel' =>
      if (i <? length binary)%nat then
        decode_loop fuel' binary (i + 16)
          (encrypted ++ fromCharCode (parseInt2 (substr binary i 16)))
      else encrypted
  end.

(** What the script tells the user. *)
Inductive Alert : Type :=
| AlertInvalid                (* "輸入無效" *)
| AlertNotFound               (* "找不到完整訊息" *)
| AlertDecrypted (text : str) (* "解密結果：\n" + decrypted *).

(** How a run ends: an [alert], if any, and the argument of [completion], if
    any; or the [TypeError] of a method call on [null]. *)
Inductive Run : Type :=
| Done (alert : option Alert) (completion : option str)
| TypeError.

(** The branch [!hasZW], with the answers to its two prompts. *)
Definition encryption_mode (input : str) (secret pin : option str) : Run :=
  match secret, pin with
  | Some secret, Some pin =>
      if is_empty secret || is_empty pin || negb (length pin =? 4)%nat
      then Done (Some AlertInvalid) None
      else
        let encrypted := xor_cipher secret pin in
        let binary :=
          join (map (fun c => padStart (toString2 (charCodeAt c 0)) 16 48)
                    (Array_from encrypted)) in
        let zw :=
          InterleaveEdition.ZW_START
          ++ join (map (fun b => if str_eqb b [48]
                                 then InterleaveEdition.ZW_ZERO
                                 else InterleaveEdition.ZW_ONE)
                       (Array_from binary))
          ++ InterleaveEdition.ZW_END in
        let result :=
          if (0 <? length input)%nat
          then firstn 1 input ++ zw ++ slice_from input 1
          else zw in
        Done None (Some result)
  | _, _ => Done (Some AlertInvalid) None
  end.

(** The other branch, with the answer to its prompt.  The PIN is not
    checked here. *)
Definition decryption_mode (input : str) (pin : option str) : Run :=
  let startIdx := indexOf input InterleaveEdition.ZW_START in
  let endIdx := indexOf input InterleaveEdition.ZW_END in
  if (startIdx =? -1) || (endIdx =? -1) then Done (Some AlertNotFound) None
  else
    let zwContent := substring input (startIdx + 1) endIdx in
    let binary :=
      join (map (fun z => if str_eqb z InterleaveEdition.ZW_ZERO
                          then [48] else [49])
                (Array_from zwContent)) in
    let encrypted := decode_loop (length binary) binary 0 [] in
    match pin with
    | Some pin =>
        let decrypted := xor_cipher encrypted pin in
        Done (Some (AlertDecrypted decrypted)) (Some decrypted)
    | None =>
        match Array_from encrypted with
        | [] => Done (Some (AlertDecrypted [])) (Some [])
        | _ :: _ => TypeError
        end
    end.

(** [input.includes(ZW_START)] *)
Definition hasZW (input : str) : bool :=
  negb (indexOf input InterleaveEdition.ZW_START =? -1).

(** The script, on its input and the answers to its prompts in order. *)
Definition run (input : str) (answers : list (option str)) : Run :=
  if negb (hasZW input)
  then encryption_mode input (nth 0 answers None) (nth 1 answers None)
  else decryption_mode input (nth 0 answers None).

(** The cipher code unit by code unit: unit [k] of the text with unit
    [(i + k) mod 4] of the PIN. *)
Fixpoint xor_units (pin : str) (i : nat) (s : str) : str :=
  match s with
  | [] => []
  | u :: t => Z.lxor u (nth (i mod 4) pin 0) :: xor_units pin (S i) t
  end.

(** The code units of a key that leave the six high bits of a code unit
    alone; the ten digits are among them. *)
Definition is_low_key (pin : str) : bool :=
  forallb (fun u => (0 <=? u) && (u <? 1024)) pin.

End ShortcutScript.

(** ** The companion script of the appending edition

    The same cipher and the same loop as in [ShortcutScript]; no sentinels,
    the run after the input, the scan by the regular expression, and a check
    of the PIN in both modes.  Its alerts are those of [ShortcutScript.Alert]
    with other wordings ("輸入無效，請確保 PIN 為 4 位數字" and "輸入無效" for
    [AlertInvalid], "找不到隱藏訊息" for [AlertNotFound]). *)

Module AppendScript.

(** [new RegExp(`[${ZW_ZERO}${ZW_ONE}]`).test(input)] *)
Definition hasZW (input : str) : bool :=
  existsb (fun u => str_eqb [u] AppendEdition.ZW_ZERO
                    || str_eqb [u] AppendEdition.ZW_ONE) input.

Definition encryption_mode (input : str) (secret pin : option str)
    : ShortcutScript.Run :=
  match secret, pin with
  | Some secret, Some pin =>
      if is_empty secret || is_empty pin || negb (length pin =? 4)%nat
      then ShortcutScript.Done (Some ShortcutScript.AlertInvalid) None
      else
        let encrypted := ShortcutScript.xor_cipher secret pin in
        let binary :=
          join (map (fun c => padStart (toString2 (charCodeAt c 0)) 16 48)
                    (Array_from encrypted)) in
        let zw :=
          join (map (fun b => if str_eqb b [48]
                              then AppendEdition.ZW_ZERO
                              else AppendEdition.ZW_ONE)
                    (Array_from binary)) in
        let result := input ++ zw in
        ShortcutScript.Done None (Some result)
  | _, _ => ShortcutScript.Done (Some ShortcutScript.AlertInvalid) None
  end.

Definition decryption_mode (input : str) (pin : option str)
    : ShortcutScript.Run :=
  match pin with
  | Some pin =>
      if is_empty pin || negb (length pin =? 4)%nat
      then ShortcutScript.Done (Some ShortcutScript.AlertInvalid) None
      else
        match AppendEdition.match_marks input with
        | None => ShortcutScript.Done (Some ShortcutScript.AlertNotFound) None
        | Some zwMatches =>
            let binary :=
              join (map (fun z => if str_eqb z AppendEdition.ZW_ZERO
                                  then [48] else [49])
                        zwMatches) in
            let encrypted :=
              ShortcutScript.decode_loop (length binary) binary 0 [] in
            let decrypted := ShortcutScript.xor_cipher encrypted pin in
            ShortcutScript.Done
              (Some (ShortcutScript.AlertDecrypted decrypted))
              (Some decrypted)
        end
  | None => ShortcutScript.Done (Some ShortcutScript.AlertInvalid) None
  end.

Definition run (input : str) (answers : list (option str))
    : ShortcutScript.Run :=
  if negb (hasZW input)
  then encryption_mode input (nth 0 answers None) (nth 1 answers None)
  else decryption_mode input (nth 0 answers None).

End AppendScript.

(** ** The first character of a cover, and a library that salts *)

Module Cover.

(** The first character of a text, as a string: its first code point, one
    code unit or a surrogate pair. *)
Definition first_character (cover : str) : str := hd [] (Array_from cover).



End Cover.

Import Cover.

(** ** The built-ins on the strings the codec builds *)

Lemma pos_digits_bits (p : positive) :
  forallb is_binary_digit (pos_digits p) = true.
Proof.
  induction p as [q IH | q IH | ]; simpl; try reflexivity;
    rewrite forallb_app, IH; reflexivity.
Qed.

Lemma pos_digits_length (p : positive) (n : nat) :
  Zpos p < 2 ^ Z.of_nat n -> (length (pos_digits p) <= n)%nat.
Proof.
  revert n.
  induction p as [q IH | q IH | ]; intros n Hn; simpl.
  - destruct n as [| n']; [simpl in Hn; lia |].
    rewrite Nat2Z.inj_succ, Z.pow_succ_r in Hn by lia.
    rewrite length_app; simpl. specialize (IH n'). lia.
  - destruct n as [| n']; [simpl in Hn; lia |].
    rewrite Nat2Z.inj_succ, Z.pow_succ_r in Hn by lia.
    rewrite length_app; simpl. specialize (IH n'). lia.
  - destruct n as [| n']; [simpl in Hn; lia |]. lia.
Qed.

Lemma digits_value_app (ds rest : str) (acc : Z) :
  forallb is_binary_digit ds = true ->
  digits_value acc (ds ++ rest) = digits_value (digits_value acc ds) rest.
Proof.
  revert acc.
  induction ds as [| d ds IH]; intros acc H; simpl in *; [reflexivity |].
  apply andb_prop in H as [Hd Hds]. rewrite Hd. now apply IH.
Qed.

Lemma digits_value_last (d acc : Z) :
  is_binary_digit d = true -> digits_value acc [d] = 2 * acc + (d - 48).
Proof.
  intros H. cbn [digits_value]. now rewrite H.
Qed.

Lemma digits_value_pos (p : positive) (acc : Z) :
  digits_value acc (pos_digits p)
  = acc * 2 ^ Z.of_nat (length (pos_digits p)) + Zpos p.
Proof.
  revert acc.
  induction p as [q IH | q IH | ]; intros acc; cbn [pos_digits].
  - rewrite digits_value_app by apply pos_digits_bits.
    rewrite digits_value_last, IH, length_app by reflexivity.
    rewrite Nat2Z.inj_add, Z.pow_add_r by lia.
    change (2 ^ Z.of_nat (length [49])) with 2.
    rewrite Pos2Z.inj_xI. lia.
  - rewrite digits_value_app by apply pos_digits_bits.
    rewrite digits_value_last, IH, length_app by reflexivity.
    rewrite Nat2Z.inj_add, Z.pow_add_r by lia.
    change (2 ^ Z.of_nat (length [48])) with 2.
    rewrite Pos2Z.inj_xO. lia.
  - rewrite digits_value_last by reflexivity.
    change (2 ^ Z.of_nat (length [49])) with 2. lia.
Qed.

Lemma digits_value_zeros (k : nat) (s : str) :
  digits_value 0 (repeat 48 k ++ s) = digits_value 0 s.
Proof.
  induction k as [| k IH]; simpl; [reflexivity | exact IH].
Qed.

(** On a string that starts with a binary digit, [parseInt] skips nothing
    and reads no sign. *)
Lemma parseInt2_digit_first (c : Z) (s : str) :
  is_binary_digit c = true ->
  parseInt2 (c :: s) = Some (digits_value 0 (c :: s)).
Proof.
  intros Hc. unfold parseInt2, is_binary_digit in *.
  apply orb_prop in Hc as [Hc | Hc]; apply Z.eqb_eq in Hc; subst c; reflexivity.
Qed.

Lemma toString2_bits (u : Z) :
  0 <= u -> forallb is_binary_digit (toString2 (Some u)) = true.
Proof.
  intros Hu. destruct u as [| p | p]; simpl; try reflexivity; try lia.
  apply pos_digits_bits.
Qed.

Lemma toString2_length (u : Z) :
  0 <= u < 65536 ->
  (1 <= length (toString2 (Some u)) <= 16)%nat.
Proof.
  intros Hu. destruct u as [| p | p]; simpl; try lia.
  split.
  - destruct p; cbn [pos_digits]; rewrite ?length_app; cbn [length]; lia.
  - apply pos_digits_length. change (2 ^ Z.of_nat 16) with 65536. lia.
Qed.

Lemma toString2_value (u : Z) :
  0 <= u -> digits_value 0 (toString2 (Some u)) = u.
Proof.
  intros Hu. destruct u as [| p | p]; simpl toString2; try lia.
  - reflexivity.
  - rewrite digits_value_pos. lia.
Qed.

Lemma unit_digits_length (u : Z) :
  is_code_unit u = true -> length (unit_digits u) = 16%nat.
Proof.
  unfold is_code_unit. intros H.
  apply andb_prop in H as [H0 H1].
  apply Z.leb_le in H0. apply Z.ltb_lt in H1.
  unfold unit_digits, padStart.
  rewrite length_app, repeat_length.
  pose proof (toString2_length u ltac:(lia)). lia.
Qed.

Lemma unit_digits_bits (u : Z) :
  0 <= u -> forallb is_binary_digit (unit_digits u) = true.
Proof.
  intros Hu. unfold unit_digits, padStart.
  rewrite forallb_app, toString2_bits by assumption.
  rewrite andb_true_r.
  induction (16 - length (toString2 (Some u)))%nat; simpl; auto.
Qed.

(** Reading back the 16 digits of a code unit gives the code unit. *)
Lemma unit_digits_parse (u : Z) :
  is_code_unit u = true ->
  fromCharCode (parseInt2 (unit_digits u)) = [u].
Proof.
  intros H. pose proof (unit_digits_length u H) as Hlen.
  unfold is_code_unit in H. apply andb_prop in H as [H0 H1].
  apply Z.leb_le in H0. apply Z.ltb_lt in H1.
  pose proof (unit_digits_bits u H0) as Hbits.
  destruct (unit_digits u) as [| c s] eqn:E; [discriminate |].
  simpl in Hbits. apply andb_prop in Hbits as [Hc _].
  rewrite (parseInt2_digit_first c s Hc), <- E.
  unfold unit_digits, padStart. rewrite digits_value_zeros.
  rewrite toString2_value by assumption.
  unfold fromCharCode, ToUint16. now rewrite Z.mod_small by lia.
Qed.

(** ** The loop of [binaryToText] *)

(** The loop only looks at the part of [binary] from [i] on. *)
Lemma binaryToText_loop_shift (fuel : nat) (binary : str) (i : nat)
    (chars : list str) :
  binaryToText_loop fuel binary i chars
  = chars ++ binaryToText_loop fuel (skipn i binary) 0 [].
Proof.
  revert binary i chars.
  induction fuel as [| fuel IH]; intros binary i chars;
    cbn [binaryToText_loop].
  - now rewrite app_nil_r.
  - rewrite length_skipn.
    destruct (i <? length binary)%nat eqn:Hi.
    + apply Nat.ltb_lt in Hi.
      replace (0 <? length binary - i)%nat with true
        by (symmetry; apply Nat.ltb_lt; lia).
      unfold slice.
      replace (i + 16 - i)%nat with 16%nat by lia.
      change (0 + 16 - 0)%nat with 16%nat.
      change (skipn 0 (skipn i binary)) with (skipn i binary).
      rewrite IH.
      rewrite (IH (skipn i binary) (0 + 16)%nat).
      rewrite skipn_skipn.
      replace (0 + 16 + i)%nat with (i + 16)%nat by lia.
      destruct (length (firstn 16 (skipn i binary)) =? 16)%nat;
        now rewrite <- ?app_assoc.
    + apply Nat.ltb_ge in Hi.
      replace (0 <? length binary - i)%nat with false
        by (symmetry; apply Nat.ltb_ge; lia).
      now rewrite app_nil_r.
Qed.

(** Any fuel that covers what is left of [binary] gives the same result. *)
Lemma binaryToText_loop_fuel (n fuel : nat) (binary : str) (i : nat)
    (chars : list str) :
  (length binary - i <= n)%nat -> (n <= fuel)%nat ->
  binaryToText_loop fuel binary i chars = binaryToText_loop n binary i chars.
Proof.
  revert fuel i chars.
  induction n as [| n IH]; intros fuel i chars Hn Hf.
  - destruct fuel as [| fuel]; [reflexivity |].
    cbn [binaryToText_loop].
    replace (i <? length binary)%nat with false
      by (symmetry; apply Nat.ltb_ge; lia).
    reflexivity.
  - destruct fuel as [| fuel]; [lia |].
    cbn [binaryToText_loop].
    destruct (i <? length binary)%nat; [| reflexivity].
    apply IH; lia.
Qed.

(** A string shorter than one group decodes to the empty string. *)
Lemma binaryToText_short (binary : str) :
  (length binary < 16)%nat -> binaryToText binary = [].
Proof.
  intros Hlen. unfold binaryToText.
  destruct binary as [| c rest]; [reflexivity |].
  cbn [length binaryToText_loop].
  change (0 <? S (length rest))%nat with true. cbv iota.
  unfold slice. change (0 + 16 - 0)%nat with 16%nat.
  change (skipn 0 (c :: rest)) with (c :: rest).
  rewrite length_firstn.
  replace (Nat.min 16 (length (c :: rest)) =? 16)%nat with false
    by (symmetry; apply Nat.eqb_neq; cbn [length] in *; lia).
  rewrite binaryToText_loop_shift.
  rewrite skipn_all2 by (cbn [length] in *; lia).
  destruct (length rest); reflexivity.
Qed.

(** A full group of 16 becomes one code unit, and decoding goes on with the
    rest. *)
Lemma binaryToText_group (byte rest : str) :
  length byte = 16%nat ->
  binaryToText (byte ++ rest)
  = fromCharCode (parseInt2 byte) ++ binaryToText rest.
Proof.
  intros Hlen. unfold binaryToText.
  rewrite length_app, Hlen.
  change (16 + length rest)%nat with (S (15 + length rest)).
  cbn [binaryToText_loop].
  rewrite length_app, Hlen.
  change (0 <? 16 + length rest)%nat with true. cbv iota.
  unfold slice. change (0 + 16 - 0)%nat with 16%nat.
  change (skipn 0 (byte ++ rest)) with (byte ++ rest).
  rewrite firstn_app, Hlen, Nat.sub_diag, firstn_O, app_nil_r.
  rewrite (firstn_all2 (n := 16) byte), Hlen, Nat.eqb_refl by lia.
  rewrite binaryToText_loop_shift.
  change (0 + 16)%nat with 16%nat.
  rewrite skipn_app, Hlen, Nat.sub_diag, skipn_O.
  rewrite (skipn_all2 (n := 16) byte) by lia. cbn [app].
  rewrite (binaryToText_loop_fuel (length rest)) by lia.
  reflexivity.
Qed.

(** ** [Array.from] on texts without surrogate pairs *)

Lemma Array_from_units (s : str) :
  no_surrogate_pair s = true -> Array_from s = map (fun u => [u]) s.
Proof.
  induction s as [| h t IH]; [reflexivity |].
  destruct t as [| l t']; [reflexivity |].
  intros H.
  change (negb (is_high_surrogate h && is_low_surrogate l)
          && no_surrogate_pair (l :: t') = true) in H.
  apply andb_prop in H as [Hp Ht].
  apply negb_true_iff in Hp.
  change (Array_from (h :: l :: t'))
    with (if is_high_surrogate h && is_low_surrogate l
          then [h; l] :: Array_from t'
          else [h] :: Array_from (l :: t')).
  rewrite Hp, (IH Ht). reflexivity.
Qed.

Lemma no_high_no_pair (s : str) :
  forallb (fun u => negb (is_high_surrogate u)) s = true ->
  no_surrogate_pair s = true.
Proof.
  induction s as [| h t IH]; [reflexivity |].
  cbn [forallb]. intros H. apply andb_prop in H as [Hh Ht].
  destruct t as [| l t']; [reflexivity |].
  change (negb (is_high_surrogate h && is_low_surrogate l)
          && no_surrogate_pair (l :: t') = true).
  rewrite (IH Ht).
  apply negb_true_iff in Hh. now rewrite Hh.
Qed.

(** On a text without surrogate pairs [textToBinary] writes the 16 digits of
    every code unit, in order. *)
Lemma textToBinary_units (text : str) :
  no_surrogate_pair text = true ->
  textToBinary text = concat (map unit_digits text).
Proof.
  intros H. unfold textToBinary, join.
  rewrite (Array_from_units text H), map_map. reflexivity.
Qed.

Lemma binaryToText_unit_digits (text : str) :
  is_string text = true ->
  binaryToText (concat (map unit_digits text)) = text.
Proof.
  induction text as [| u text IH]; [reflexivity |].
  cbn [is_string forallb map concat]. intros H.
  apply andb_prop in H as [Hu Ht].
  rewrite binaryToText_group by now apply unit_digits_length.
  rewrite unit_digits_parse by assumption.
  cbn [app]. f_equal. now apply IH.
Qed.

(** The round trip of the bit codec, on the texts whose code points are all
    single code units. *)
Lemma binaryToText_textToBinary_units (text : str) :
  is_string text = true -> no_surrogate_pair text = true ->
  binaryToText (textToBinary text) = text.
Proof.
  intros Hs Hp. rewrite textToBinary_units by assumption.
  now apply binaryToText_unit_digits.
Qed.

(** ** Bit streams and the groups of 16 *)

Lemma render_bits (bits : list bool) :
  forallb is_binary_digit (render bits) = true.
Proof.
  induction bits as [| [] bits IH]; simpl; auto.
Qed.

Lemma digits_value_render (bits : list bool) (acc : Z) :
  digits_value acc (render bits)
  = fold_left (fun a b => 2 * a + Z.b2z b) bits acc.
Proof.
  revert acc.
  induction bits as [| b bits IH]; intros acc; [reflexivity |].
  cbn [render map digits_value fold_left].
  replace (is_binary_digit (bit_char b)) with true by now destruct b.
  fold (render bits). rewrite IH. now destruct b.
Qed.

Lemma fold_msb_bounds (bits : list bool) (acc : Z) :
  0 <= acc ->
  acc * 2 ^ Z.of_nat (length bits)
  <= fold_left (fun a b => 2 * a + Z.b2z b) bits acc
  < (acc + 1) * 2 ^ Z.of_nat (length bits).
Proof.
  revert acc.
  induction bits as [| b bits IH]; intros acc Hacc.
  - cbn [length fold_left]. change (2 ^ Z.of_nat 0) with 1. lia.
  - cbn [length fold_left].
    rewrite Nat2Z.inj_succ, Z.pow_succ_r by lia.
    assert (H0 : 0 <= 2 * acc + Z.b2z b) by (destruct b; cbn [Z.b2z]; lia).
    specialize (IH _ H0).
    assert (Hp : 0 < 2 ^ Z.of_nat (length bits))
      by (apply Z.pow_pos_nonneg; lia).
    destruct b; cbn [Z.b2z] in *; nia.
Qed.

Lemma unit_msb_range (chunk : list bool) :
  length chunk = 16%nat -> 0 <= unit_msb chunk < 65536.
Proof.
  intros Hlen. pose proof (fold_msb_bounds chunk 0 ltac:(lia)) as H.
  rewrite Hlen in H. change (2 ^ Z.of_nat 16) with 65536 in H.
  unfold unit_msb. lia.
Qed.

(** [unit_msb] reads the first bit of a group as the bit of greatest
    weight: bit [i] of the group is bit [length - 1 - i] of the value. *)
Lemma unit_msb_testbit (chunk : list bool) (i : nat) :
  (i < length chunk)%nat ->
  Z.testbit (unit_msb chunk) (Z.of_nat (length chunk - 1 - i))
  = nth i chunk false.
Proof.
  revert i.
  induction chunk as [| b chunk IH] using rev_ind; intros i Hi.
  - simpl in Hi. lia.
  - unfold unit_msb in *. rewrite fold_left_app. cbn [fold_left].
    rewrite length_app in *. cbn [length] in *.
    destruct (Nat.eq_dec i (length chunk)) as [-> | Hne].
    + replace (length chunk + 1 - 1 - length chunk)%nat with 0%nat by lia.
      rewrite Z.testbit_0_r.
      now rewrite app_nth2, Nat.sub_diag by lia.
    + replace (Z.of_nat (length chunk + 1 - 1 - i))
        with (Z.succ (Z.of_nat (length chunk - 1 - i))) by lia.
      rewrite Z.testbit_succ_r by lia.
      rewrite app_nth1 by lia. apply IH. lia.
Qed.

(** A full group of rendered bits decodes to its value. *)
Lemma fromCharCode_parse_render (chunk : list bool) :
  length chunk = 16%nat ->
  fromCharCode (parseInt2 (render chunk)) = [unit_msb chunk].
Proof.
  intros Hlen. pose proof (unit_msb_range chunk Hlen) as Hr.
  destruct chunk as [| b chunk]; [discriminate |].
  cbn [render map]. rewrite parseInt2_digit_first by now destruct b.
  change (bit_char b :: map bit_char chunk) with (render (b :: chunk)).
  rewrite digits_value_render.
  unfold fromCharCode, ToUint16. fold (unit_msb (b :: chunk)).
  now rewrite Z.mod_small by lia.
Qed.

Lemma binaryToText_groups (n : nat) (bits : list bool) :
  (length bits / 16 = n)%nat ->
  binaryToText (render bits)
  = map (fun k => unit_msb (group16 bits k)) (seq 0 n).
Proof.
  revert bits.
  induction n as [| n IH]; intros bits Hn.
  - apply binaryToText_short. unfold render. rewrite length_map.
    apply Nat.div_small_iff in Hn; lia.
  - assert (Hlen : (16 <= length bits)%nat).
    { destruct (Nat.lt_ge_cases (length bits) 16) as [Hlt | Hge]; [| exact Hge].
      rewrite Nat.div_small in Hn by exact Hlt. discriminate. }
    rewrite <- (firstn_skipn 16 bits) at 1.
    unfold render. rewrite map_app. fold (render (firstn 16 bits)).
    fold (render (skipn 16 bits)).
    rewrite binaryToText_group
      by (unfold render; rewrite length_map, length_firstn; lia).
    rewrite fromCharCode_parse_render by (rewrite length_firstn; lia).
    rewrite (IH (skipn 16 bits)).
    + cbn [seq map app]. f_equal.
      rewrite <- seq_shift, map_map.
      apply map_ext. intros k. unfold group16.
      rewrite skipn_skipn. do 3 f_equal. lia.
    + rewrite length_skipn.
      replace (length bits) with (length bits - 16 + 1 * 16)%nat in Hn by lia.
      rewrite Nat.div_add in Hn by lia. lia.
Qed.

Lemma render_unrender (s : str) :
  forallb is_binary_digit s = true ->
  render (map (fun c => c =? 49) s) = s.
Proof.
  induction s as [| c s IH]; [reflexivity |].
  cbn [forallb map render]. intros H. apply andb_prop in H as [Hc Hs].
  fold (render (map (fun c => c =? 49) s)). rewrite (IH Hs). f_equal.
  unfold is_binary_digit in Hc.
  apply orb_prop in Hc as [Hc | Hc]; apply Z.eqb_eq in Hc; now subst c.
Qed.

Lemma bits16_length (u : Z) : length (bits16 u) = 16%nat.
Proof. reflexivity. Qed.

Lemma bits16_nth (u : Z) (i : nat) :
  (i < 16)%nat -> nth i (bits16 u) false = Z.testbit u (Z.of_nat (15 - i)).
Proof.
  intros Hi. unfold bits16.
  rewrite (nth_indep _ false (Z.testbit u (Z.of_nat (15 - 0))))
    by (rewrite length_map, length_seq; exact Hi).
  rewrite (map_nth (fun i => Z.testbit u (Z.of_nat (15 - i)))).
  now rewrite seq_nth by exact Hi.
Qed.

(** The 16 digits [textToBinary] writes for a code unit are its 16 bits,
    most significant first. *)
Lemma unit_digits_msb (u : Z) :
  is_code_unit u = true -> unit_digits u = render (bits16 u).
Proof.
  intros Hu.
  pose proof (unit_digits_length u Hu) as Hlen.
  assert (H0 : 0 <= u).
  { unfold is_code_unit in Hu. apply andb_prop in Hu as [H _].
    now apply Z.leb_le in H. }
  pose proof (render_unrender _ (unit_digits_bits u H0)) as Hr.
  set (bs := map (fun c => c =? 49) (unit_digits u)) in *.
  assert (Hbs : length bs = 16%nat)
    by (unfold bs; now rewrite length_map).
  assert (Hv : unit_msb bs = u).
  { unfold unit_msb. rewrite <- digits_value_render, Hr.
    unfold unit_digits, padStart.
    now rewrite digits_value_zeros, toString2_value. }
  rewrite <- Hr. f_equal.
  apply (nth_ext _ _ false false); [now rewrite Hbs |].
  intros i Hi. rewrite Hbs in Hi.
  rewrite bits16_nth by exact Hi.
  rewrite <- (unit_msb_testbit bs i) by lia.
  rewrite Hbs, Hv. do 2 f_equal.
Qed.

(** On a text without surrogate pairs the bit stream of [textToBinary] is
    the 16 bits of every code unit, most significant first, in order. *)
Lemma textToBinary_msb (text : str) :
  is_string text = true -> no_surrogate_pair text = true ->
  textToBinary text = render (concat (map bits16 text)).
Proof.
  intros Hs Hp. rewrite textToBinary_units by exact Hp. clear Hp.
  induction text as [| u text IH]; [reflexivity |].
  cbn [is_string forallb] in Hs. apply andb_prop in Hs as [Hu Ht].
  cbn [map concat]. unfold render. rewrite map_app.
  fold (render (bits16 u)). fold (render (concat (map bits16 text))).
  now rewrite unit_digits_msb, IH.
Qed.

(** ** The bit codec: claims C2, C3 and C7 *)

(** C2 (the code departs from it).  The round trip of the bit codec loses
    the low surrogate of a surrogate pair: the well-formed text U+1F600 comes
    back as the lone high surrogate D83D.  [Array.from] yields the pair as one
    element and [charCodeAt(0)] reads its first code unit only.  The first
    edition passes the message itself through the codec, so hiding U+1F600 in
    the cover "A" and revealing it hands over D83D. *)
Theorem bit_codec_round_trip_loses_low_surrogate :
  is_string grinning_face = true
  /\ binaryToText (textToBinary grinning_face) = [55357]
  /\ binaryToText (textToBinary grinning_face) <> grinning_face
  /\ hide_then_reveal grinning_face [65] = inr [55357].
Proof.
  repeat split; try reflexivity. discriminate.
Qed.

(** C3 (the code departs from it).  [textToBinary] writes ONE group of 16
    bits for a code point above U+FFFF, the bits of its high surrogate, and
    not two groups: for U+1F600 the stream has 16 digits, those of D83D, and
    the digits of the low surrogate DE00 are missing. *)
Theorem textToBinary_one_group_per_code_point :
  textToBinary grinning_face = render (bits16 55357)
  /\ length (textToBinary grinning_face) = 16%nat
  /\ textToBinary grinning_face
     <> render (bits16 55357) ++ render (bits16 56832).
Proof.
  repeat split; try reflexivity. discriminate.
Qed.

(** C7.  Every bit stream decodes group by group: the result has one code
    unit for every full group of 16 bits, the [k]-th being the value of the
    [k]-th group read most significant bit first, and the bits after the last
    full group have no effect.  A stream of 17 bits decodes to the single code
    unit of its first 16 bits. *)
Theorem binaryToText_discards_partial_unit (bits : list bool) :
  binaryToText (render bits)
  = map (fun k => unit_msb (group16 bits k)) (seq 0 (length bits / 16))
  /\ binaryToText (render bits)
     = binaryToText (render (firstn (16 * (length bits / 16)) bits))
  /\ (length bits = 17%nat ->
      binaryToText (render bits) = [unit_msb (firstn 16 bits)]).
Proof.
  assert (H : binaryToText (render bits)
              = map (fun k => unit_msb (group16 bits k))
                    (seq 0 (length bits / 16)))
    by now apply binaryToText_groups.
  split; [exact H |]. split.
  - rewrite H.
    pose proof (Nat.div_mod_eq (length bits) 16) as Hdm.
    pose proof (Nat.mod_upper_bound (length bits) 16 ltac:(lia)) as Hm.
    set (q := (length bits / 16)%nat) in *.
    rewrite (binaryToText_groups q).
    + apply map_ext_in. intros k Hk. apply in_seq in Hk.
      unfold group16. f_equal.
      rewrite skipn_firstn_comm, firstn_firstn.
      f_equal. lia.
    + rewrite length_firstn.
      replace (Nat.min (16 * q) (length bits)) with (q * 16)%nat by lia.
      apply Nat.div_mul. lia.
  - intros H17. rewrite H, H17. reflexivity.
Qed.

Lemma binaryToText_discards_partial_unit_witness :
  binaryToText (render (repeat false 9 ++ [true; true; false; true;
                                           false; false; false; true]))
  = [104].
Proof.
  exact (proj2 (proj2 (binaryToText_discards_partial_unit
                         (repeat false 9 ++ [true; true; false; true;
                                             false; false; false; true])))
               eq_refl).
Defined.

(** ** Positions and [indexOf] *)

Lemma str_pair_ind (P : str -> Prop) :
  P [] -> (forall h, P [h]) ->
  (forall h l t, P t -> P (l :: t) -> P (h :: l :: t)) ->
  forall s, P s.
Proof.
  intros H0 H1 H2 s.
  enough (H : P s /\ forall x, P (x :: s)) by apply H.
  induction s as [| a s [IHs IHx]]; split; auto.
Qed.

Lemma indexOf_from_first_position (c : Z) (s : str) (i : Z) :
  indexOf_from s [c] i
  = match first_position c s with
    | Some k => i + Z.of_nat k
    | None => -1
    end.
Proof.
  revert i.
  induction s as [| x s IH]; intros i; [reflexivity |].
  cbn [indexOf_from startsWith first_position].
  rewrite andb_true_r.
  destruct (x =? c); [f_equal; lia |].
  rewrite IH. destruct (first_position c s); cbn [option_map]; lia.
Qed.

Lemma indexOf_first_position (c : Z) (s : str) :
  indexOf s [c]
  = match first_position c s with
    | Some k => Z.of_nat k
    | None => -1
    end.
Proof.
  unfold indexOf. rewrite indexOf_from_first_position.
  now destruct (first_position c s).
Qed.

(** [first_position] is the first position: the code unit is there, and
    nowhere before. *)
Lemma first_position_some (c : Z) (s : str) (k : nat) :
  first_position c s = Some k ->
  (k < length s)%nat /\ nth k s 0 = c
  /\ forall m, (m < k)%nat -> nth m s 0 <> c.
Proof.
  revert k.
  induction s as [| x s IH]; intros k; [discriminate |].
  cbn [first_position].
  destruct (x =? c) eqn:E.
  - intros [= <-]. apply Z.eqb_eq in E. cbn [length nth].
    repeat split; [lia | exact E | intros m Hm; lia].
  - destruct (first_position c s) as [k' |]; [| discriminate].
    cbn [option_map]. intros [= <-].
    destruct (IH k' eq_refl) as (Hk & Hn & Hb).
    apply Z.eqb_neq in E. cbn [length].
    repeat split; [lia | exact Hn |].
    intros [| m] Hm; cbn [nth]; [exact E | apply Hb; lia].
Qed.

Lemma first_position_none (c : Z) (s : str) :
  first_position c s = None <-> ~ In c s.
Proof.
  induction s as [| x s IH]; cbn [first_position In]; [tauto |].
  destruct (x =? c) eqn:E.
  - apply Z.eqb_eq in E. split; [discriminate | tauto].
  - apply Z.eqb_neq in E.
    destruct (first_position c s); cbn [option_map].
    + split; [discriminate |]. intros H. exfalso. apply H. right.
      destruct (in_dec Z.eq_dec c s) as [Hin | Hout]; [exact Hin |].
      apply IH in Hout. discriminate.
    + split; [| reflexivity]. intros _ [H | H]; [tauto |].
      now apply IH in H.
Qed.

Lemma first_position_app (c : Z) (l r : str) :
  ~ In c l -> first_position c (l ++ c :: r) = Some (length l).
Proof.
  induction l as [| x l IH]; cbn [app first_position length In]; intros H.
  - now rewrite Z.eqb_refl.
  - replace (x =? c) with false by (symmetry; apply Z.eqb_neq; tauto).
    rewrite IH by tauto. reflexivity.
Qed.

Lemma substring_between (s : str) (i j : nat) :
  (i < j)%nat -> (j < length s)%nat ->
  substring s (Z.of_nat i + 1) (Z.of_nat j) = strictly_between i j s.
Proof.
  intros Hij Hj. unfold substring, clamp, slice, strictly_between.
  replace (Z.to_nat (Z.of_nat i + 1)) with (i + 1)%nat by lia.
  rewrite Nat2Z.id.
  rewrite (Nat.min_l (i + 1)), (Nat.min_l j) by lia.
  rewrite Nat.min_l, Nat.max_r by lia.
  f_equal. lia.
Qed.

Lemma strictly_between_nth (s : str) (i j k : nat) :
  (j <= length s)%nat -> (k < j - i - 1)%nat ->
  nth k (strictly_between i j s) 0 = nth (i + 1 + k) s 0.
Proof.
  intros Hj Hk. unfold strictly_between.
  rewrite nth_firstn.
  replace (k <? j - i - 1)%nat with true
    by (symmetry; apply Nat.ltb_lt; lia).
  now rewrite nth_skipn.
Qed.

Lemma strictly_between_length (s : str) (i j : nat) :
  (j <= length s)%nat -> length (strictly_between i j s) = (j - i - 1)%nat.
Proof.
  intros Hj. unfold strictly_between.
  rewrite length_firstn, length_skipn. lia.
Qed.

(** ** The sentinel scan *)

Lemma surrogate_not_mark (u : Z) :
  is_high_surrogate u || is_low_surrogate u = true ->
  (u =? 8204) = false /\ (u =? 8205) = false.
Proof.
  unfold is_high_surrogate, is_low_surrogate. intros H.
  split; apply Z.eqb_neq; intros ->; discriminate.
Qed.

(** The [filter] and [map] of the scan, on the elements [Array.from] yields,
    collect exactly the marks of the code units. *)
Lemma scan_marks (zwContent : str) :
  join (map (fun char => if str_eqb char InterleaveEdition.ZW_ZERO
                         then [48] else [49])
            (filter (fun char => str_eqb char InterleaveEdition.ZW_ZERO
                                 || str_eqb char InterleaveEdition.ZW_ONE)
                    (Array_from zwContent)))
  = render (marks 8204 8205 zwContent).
Proof.
  assert (Hone : forall h rest,
    join (map (fun char => if str_eqb char InterleaveEdition.ZW_ZERO
                           then [48] else [49])
              (filter (fun char => str_eqb char InterleaveEdition.ZW_ZERO
                                   || str_eqb char InterleaveEdition.ZW_ONE)
                      ([h] :: rest)))
    = render (marks 8204 8205 [h])
      ++ join (map (fun char => if str_eqb char InterleaveEdition.ZW_ZERO
                                then [48] else [49])
                   (filter (fun char => str_eqb char InterleaveEdition.ZW_ZERO
                                        || str_eqb char InterleaveEdition.ZW_ONE)
                           rest))).
  { intros h rest.
    unfold InterleaveEdition.ZW_ZERO, InterleaveEdition.ZW_ONE.
    destruct (h =? 8204) eqn:E0; destruct (h =? 8205) eqn:E1;
      do 3 (cbn [filter map str_eqb andb orb marks flat_map];
            rewrite ?E0, ?E1);
      reflexivity. }
  induction zwContent as [| h | h l t IHt IHlt] using str_pair_ind.
  - reflexivity.
  - change (Array_from [h]) with [[h]]. rewrite Hone. cbn [filter map join concat].
    now rewrite app_nil_r.
  - change (Array_from (h :: l :: t))
      with (if is_high_surrogate h && is_low_surrogate l
            then [h; l] :: Array_from t
            else [h] :: Array_from (l :: t)).
    destruct (is_high_surrogate h && is_low_surrogate l) eqn:Hp.
    + apply andb_prop in Hp as [Hh Hl].
      destruct (surrogate_not_mark h) as [Hh0 Hh1]; [now rewrite Hh |].
      destruct (surrogate_not_mark l) as [Hl0 Hl1];
        [now rewrite Hl, orb_true_r |].
      cbn [filter str_eqb InterleaveEdition.ZW_ZERO InterleaveEdition.ZW_ONE].
      rewrite !andb_false_r. cbn [orb].
      rewrite IHt. cbn [marks flat_map].
      now rewrite Hh0, Hh1, Hl0, Hl1.
    + rewrite Hone, IHlt.
      change (h :: l :: t) with ([h] ++ l :: t).
      unfold marks, render. now rewrite flat_map_app, map_app.
Qed.

(** The scan in the words of the specification: the first START-MARK, the
    first END-MARK, and the marks strictly between them. *)
Lemma extractBinary_spec (inputText : str) :
  InterleaveEdition.extractBinary inputText
  = match first_position 8288 inputText, first_position 65279 inputText with
    | Some i, Some j =>
        if (i <? j)%nat
        then Some (render (marks 8204 8205 (strictly_between i j inputText)))
        else None
    | _, _ => None
    end.
Proof.
  unfold InterleaveEdition.extractBinary,
    InterleaveEdition.ZW_START, InterleaveEdition.ZW_END.
  rewrite !indexOf_first_position.
  destruct (first_position 8288 inputText) as [i |] eqn:Ei; [| reflexivity].
  destruct (first_position 65279 inputText) as [j |] eqn:Ej.
  - replace (Z.of_nat i =? -1) with false by (symmetry; apply Z.eqb_neq; lia).
    replace (Z.of_nat j =? -1) with false by (symmetry; apply Z.eqb_neq; lia).
    cbn [orb].
    destruct (i <? j)%nat eqn:Hij.
    + apply Nat.ltb_lt in Hij.
      replace (Z.of_nat j <=? Z.of_nat i) with false
        by (symmetry; apply Z.leb_gt; lia).
      apply first_position_some in Ej as (Hj & _ & _).
      rewrite substring_between by assumption.
      now rewrite scan_marks.
    + apply Nat.ltb_ge in Hij.
      replace (Z.of_nat j <=? Z.of_nat i) with true
        by (symmetry; apply Z.leb_le; lia).
      reflexivity.
  - replace (Z.of_nat i =? -1) with false by (symmetry; apply Z.eqb_neq; lia).
    reflexivity.
Qed.

(** C4.  Once [handleDecrypt] is past its checks of the input fields, it
    reports [NotFound] (and clears the result) when the START-MARK is absent,
    when the END-MARK is absent, and when the first END-MARK is not after the
    first START-MARK.  Otherwise the bits are the ZERO-MARKs and ONE-MARKs
    strictly between the two positions, every other code unit there being
    skipped; with no such mark it reports [EmptyPayload], which is not
    [NotFound], and with some it goes on to decrypt the decoded bits. *)
Theorem sentinel_scan_contract (api : CryptoJS_API) (st : AppState) :
  is_empty (inputText st) = false ->
  valid_pin (decryptPin st) = true ->
  match first_position 8288 (inputText st),
        first_position 65279 (inputText st) with
  | Some i, Some j =>
      if (i <? j)%nat then
        match marks 8204 8205 (strictly_between i j (inputText st)) with
        | [] =>
            InterleaveEdition.handleDecrypt api st
            = setError EmptyPayload (setError NoError st)
        | bits =>
            InterleaveEdition.handleDecrypt api st
            = tryDecrypt api (setError NoError st) (render bits)
        end
      else
        InterleaveEdition.handleDecrypt api st
        = setResultText [] (setError NotFound (setError NoError st))
  | _, _ =>
      InterleaveEdition.handleDecrypt api st
      = setResultText [] (setError NotFound (setError NoError st))
  end
  /\ EmptyPayload <> NotFound.
Proof.
  intros Hin Hpin. split; [| discriminate].
  unfold InterleaveEdition.handleDecrypt.
  rewrite Hin, Hpin. cbn [negb].
  change (inputText (setError NoError st)) with (inputText st).
  rewrite extractBinary_spec.
  destruct (first_position 8288 (inputText st)) as [i |]; [| reflexivity].
  destruct (first_position 65279 (inputText st)) as [j |]; [| reflexivity].
  destruct (i <? j)%nat; [| reflexivity].
  destruct (marks 8204 8205 (strictly_between i j (inputText st)));
    reflexivity.
Qed.

(** ** The splice *)

Lemma interleave_cons (c : Z) (rest run : str) :
  InterleaveEdition.interleave (c :: rest) run = c :: run ++ rest.
Proof. reflexivity. Qed.

(** ** Marker transparency *)

Lemma strip_markers_app (alphabet a b : str) :
  strip_markers alphabet (a ++ b)
  = strip_markers alphabet a ++ strip_markers alphabet b.
Proof. apply filter_app. Qed.

Lemma strip_markers_free (alphabet s : str) :
  marker_free alphabet s = true -> strip_markers alphabet s = s.
Proof.
  unfold marker_free, strip_markers.
  induction s as [| u s IH]; [reflexivity |].
  cbn [forallb filter]. intros H. apply andb_prop in H as [Hu Hs].
  now rewrite Hu, (IH Hs).
Qed.

(** A run of ZERO-MARKs and ONE-MARKs has no visible code unit. *)
Lemma strip_markers_run (alphabet : str) (zero one : Z) (l : list str) :
  is_marker alphabet zero = true -> is_marker alphabet one = true ->
  strip_markers alphabet
    (join (map (fun bit => if str_eqb bit [48] then [zero] else [one]) l))
  = [].
Proof.
  intros Hz Ho.
  induction l as [| bit l IH]; [reflexivity |].
  cbn [map join concat]. rewrite strip_markers_app.
  unfold join in IH. rewrite IH, app_nil_r.
  unfold strip_markers.
  destruct (str_eqb bit [48]); cbn [filter]; now rewrite ?Hz, ?Ho.
Qed.

(** Stripping the markers of a carrier leaves the visible code units of the
    cover, whatever the cover and the hidden text. *)
Lemma strip_interleave (cover binary : str) :
  strip_markers interleave_alphabet
    (InterleaveEdition.interleave cover (InterleaveEdition.hiddenChars binary))
  = strip_markers interleave_alphabet cover.
Proof.
  assert (Hrun : strip_markers interleave_alphabet
                   (InterleaveEdition.hiddenChars binary) = []).
  { unfold InterleaveEdition.hiddenChars. rewrite !strip_markers_app.
    unfold InterleaveEdition.ZW_ZERO, InterleaveEdition.ZW_ONE.
    rewrite strip_markers_run by reflexivity. reflexivity. }
  destruct cover as [| c rest].
  - exact Hrun.
  - rewrite interleave_cons.
    change (c :: InterleaveEdition.hiddenChars binary ++ rest)
      with ([c] ++ InterleaveEdition.hiddenChars binary ++ rest).
    rewrite !strip_markers_app, Hrun.
    change (c :: rest) with ([c] ++ rest).
    now rewrite strip_markers_app.
Qed.

Lemma strip_append (cover binary : str) :
  strip_markers append_alphabet
    (AppendEdition.append cover (AppendEdition.hiddenChars binary))
  = strip_markers append_alphabet cover.
Proof.
  unfold AppendEdition.append, AppendEdition.hiddenChars.
  rewrite strip_markers_app.
  unfold AppendEdition.ZW_ZERO, AppendEdition.ZW_ONE.
  rewrite strip_markers_run by reflexivity. apply app_nil_r.
Qed.

(** C8 as the specification states it fails: a cover that itself holds a
    code unit of the marker alphabet (here U+200C between "A" and "B", with
    the payload "hi") loses it when the markers are stripped, in both
    editions. *)
Lemma marker_transparency_fails_on_marked_cover :
  strip_markers interleave_alphabet
    (InterleaveEdition.interleave [65; 8204; 66]
       (InterleaveEdition.hiddenChars (textToBinary [104; 105])))
  <> [65; 8204; 66]
  /\ strip_markers append_alphabet
       (AppendEdition.append [65; 8204; 66]
          (AppendEdition.hiddenChars (textToBinary [104; 105])))
     <> [65; 8204; 66].
Proof.
  rewrite strip_interleave, strip_append. split; discriminate.
Qed.

(** C8, amended.  For every payload text and every cover that holds no code
    unit of the marker alphabet, stripping the marker alphabet from the
    carrier gives back the cover, for the interleaving splice (alphabet ZERO,
    ONE, START, END) and for the appending splice (alphabet ZERO, ONE). *)
Theorem marker_transparency (cover text : str) :
  (marker_free interleave_alphabet cover = true ->
   strip_markers interleave_alphabet
     (InterleaveEdition.interleave cover
        (InterleaveEdition.hiddenChars (textToBinary text)))
   = cover)
  /\ (marker_free append_alphabet cover = true ->
      strip_markers append_alphabet
        (AppendEdition.append cover
           (AppendEdition.hiddenChars (textToBinary text)))
      = cover).
Proof.
  split; intros Hfree.
  - rewrite strip_interleave. now apply strip_markers_free.
  - rewrite strip_append. now apply strip_markers_free.
Qed.

Lemma marker_transparency_witness :
  strip_markers interleave_alphabet
    (InterleaveEdition.interleave [116; 101; 115; 116]
       (InterleaveEdition.hiddenChars (textToBinary [104; 105])))
  = [116; 101; 115; 116]
  /\ strip_markers append_alphabet
       (AppendEdition.append [116; 101; 115; 116]
          (AppendEdition.hiddenChars (textToBinary [104; 105])))
     = [116; 101; 115; 116].
Proof.
  split.
  - exact (proj1 (marker_transparency [116; 101; 115; 116] [104; 105])
                 eq_refl).
  - exact (proj2 (marker_transparency [116; 101; 115; 116] [104; 105])
                 eq_refl).
Defined.

(** ** The envelope opened *)

(** What the [try] block of [handleDecrypt] reports: the one failure
    [WrongKeyOrCorrupt] exactly when the library throws or decodes to the
    empty string, and otherwise the text the library decoded, as it is. *)
Lemma tryDecrypt_outcome (api : CryptoJS_API) (st : AppState) (binary : str) :
  error st = NoError ->
  outcome (tryDecrypt api st binary)
  = match AES_decrypt api (binaryToText binary) (decryptPin st) with
    | None => inl WrongKeyOrCorrupt
    | Some bytes =>
        match WordArray_toString_Utf8 api bytes with
        | None | Some [] => inl WrongKeyOrCorrupt
        | Some originalText => inr originalText
        end
    end.
Proof.
  intros Herr. unfold tryDecrypt.
  destruct (AES_decrypt api (binaryToText binary) (decryptPin st))
    as [bytes |]; [| reflexivity].
  destruct (WordArray_toString_Utf8 api bytes) as [[| u t] |];
    try reflexivity.
  unfold outcome. cbn [is_empty setResultText error resultText].
  now rewrite Herr.
Qed.

Lemma tryDecrypt_not_empty (api : CryptoJS_API) (st : AppState)
    (binary : str) :
  outcome (tryDecrypt api st binary) <> inr [].
Proof.
  unfold tryDecrypt.
  destruct (AES_decrypt api (binaryToText binary) (decryptPin st))
    as [bytes |]; [| discriminate].
  destruct (WordArray_toString_Utf8 api bytes) as [[| u t] |];
    try discriminate.
  unfold outcome. cbn [is_empty setResultText error resultText].
  destruct (error st); discriminate.
Qed.

(** C10.  Neither edition of [handleDecrypt] ever hands over the empty
    string as a result, and whenever the library opens the envelope to the
    empty string the outcome is [WrongKeyOrCorrupt]. *)
Theorem open_never_returns_empty (api : CryptoJS_API) (st : AppState) :
  outcome (InterleaveEdition.handleDecrypt api st) <> inr []
  /\ outcome (AppendEdition.handleDecrypt api st) <> inr []
  /\ (forall (binary : str) (bytes : WordArray api),
         AES_decrypt api (binaryToText binary) (decryptPin st) = Some bytes ->
         WordArray_toString_Utf8 api bytes = Some [] ->
         outcome (tryDecrypt api st binary) = inl WrongKeyOrCorrupt).
Proof.
  split; [| split].
  - unfold InterleaveEdition.handleDecrypt.
    destruct (is_empty (inputText st)); [discriminate |].
    destruct (valid_pin (decryptPin st)); [| discriminate].
    cbn [negb].
    destruct (InterleaveEdition.extractBinary
                (inputText (setError NoError st))) as [binary |];
      [| discriminate].
    destruct (length binary =? 0)%nat; [discriminate |].
    apply tryDecrypt_not_empty.
  - unfold AppendEdition.handleDecrypt.
    destruct (is_empty (inputText st)); [discriminate |].
    destruct (valid_pin (decryptPin st)); [| discriminate].
    cbn [negb].
    destruct (AppendEdition.match_marks (inputText (setError NoError st)));
      [| discriminate].
    apply tryDecrypt_not_empty.
  - intros binary bytes Hd Hu. unfold tryDecrypt. now rewrite Hd, Hu.
Qed.

(** An envelope that opens to the empty string, under the stand-in cipher:
    the passphrase alone. *)
Lemma open_never_returns_empty_witness :
  outcome (tryDecrypt plain_api (mkState [] [] [] [48; 48; 48; 48] [] [] NoError)
             (textToBinary [48; 48; 48; 48]))
  = inl WrongKeyOrCorrupt.
Proof.
  exact (proj2 (proj2 (open_never_returns_empty plain_api
                         (mkState [] [] [] [48; 48; 48; 48] [] [] NoError)))
               (textToBinary [48; 48; 48; 48]) [] eq_refl eq_refl).
Defined.

Lemma sentinel_scan_contract_witness :
  InterleaveEdition.handleDecrypt plain_api
    (mkState [] [] [] [49; 50; 51; 52] [65; 8288; 8204; 8205; 65279] []
             NoError)
  = tryDecrypt plain_api
      (setError NoError
         (mkState [] [] [] [49; 50; 51; 52] [65; 8288; 8204; 8205; 65279] []
                  NoError))
      (render [false; true])
  /\ EmptyPayload <> NotFound.
Proof.
  exact (sentinel_scan_contract plain_api
           (mkState [] [] [] [49; 50; 51; 52] [65; 8288; 8204; 8205; 65279]
                    [] NoError)
           eq_refl eq_refl).
Defined.

(** ** The round trip through both handlers *)

Lemma base64_code_unit (u : Z) :
  is_base64_char u = true ->
  is_code_unit u = true /\ is_high_surrogate u = false.
Proof.
  unfold is_base64_char, is_code_unit, is_high_surrogate. intros H.
  split; [apply andb_true_intro; split; [apply Z.leb_le | apply Z.ltb_lt]
         | apply andb_false_intro1; apply Z.leb_gt];
    repeat (apply orb_prop in H as [H | H]);
    repeat (apply andb_prop in H as [? H]);
    rewrite ?Z.leb_le, ?Z.eqb_eq in *; lia.
Qed.

Lemma base64_string (s : str) :
  forallb is_base64_char s = true ->
  is_string s = true /\ no_surrogate_pair s = true.
Proof.
  intros H. split.
  - unfold is_string. rewrite forallb_forall in *.
    intros u Hu. now apply base64_code_unit, H.
  - apply no_high_no_pair. rewrite forallb_forall in *.
    intros u Hu. apply negb_true_iff. now apply base64_code_unit, H.
Qed.

(** The marker run for a string of binary digits, one mark per digit. *)
Lemma hiddenChars_digits (binary : str) :
  forallb is_binary_digit binary = true ->
  InterleaveEdition.hiddenChars binary
  = 8288 :: map (fun c => if c =? 48 then 8204 else 8205) binary ++ [65279].
Proof.
  intros Hb. unfold InterleaveEdition.hiddenChars.
  rewrite Array_from_units.
  - cbn [InterleaveEdition.ZW_START InterleaveEdition.ZW_END app]. do 2 f_equal.
    clear Hb. induction binary as [| c binary IH]; [reflexivity |].
    cbn [map join concat str_eqb]. unfold join in IH. rewrite IH.
    rewrite andb_true_r. now destruct (c =? 48).
  - apply no_high_no_pair. rewrite forallb_forall in *. intros u Hu.
    specialize (Hb u Hu). unfold is_binary_digit in Hb.
    apply orb_prop in Hb as [Hb | Hb]; apply Z.eqb_eq in Hb; now subst u.
Qed.

Lemma marks_of_run (binary : str) :
  forallb is_binary_digit binary = true ->
  render (marks 8204 8205
            (map (fun c => if c =? 48 then 8204 else 8205) binary))
  = binary.
Proof.
  induction binary as [| c binary IH]; [reflexivity |].
  cbn [forallb]. intros H. apply andb_prop in H as [Hc Hb].
  cbn [map marks flat_map]. unfold render. rewrite map_app.
  fold (marks 8204 8205
          (map (fun c => if c =? 48 then 8204 else 8205) binary)).
  fold (render (marks 8204 8205
          (map (fun c => if c =? 48 then 8204 else 8205) binary))).
  rewrite (IH Hb).
  unfold is_binary_digit in Hc.
  apply orb_prop in Hc as [Hc | Hc]; apply Z.eqb_eq in Hc; now subst c.
Qed.

Lemma run_has_no_sentinel (binary : str) (c : Z) :
  c <> 8204 -> c <> 8205 ->
  ~ In c (map (fun c => if c =? 48 then 8204 else 8205) binary).
Proof.
  intros H0 H1 Hin. apply in_map_iff in Hin as (d & Hd & _).
  destruct (d =? 48); congruence.
Qed.

Lemma firstn_length_app (a b : str) : firstn (length a) (a ++ b) = a.
Proof.
  induction a as [| x a IH]; cbn [length app firstn];
    [now destruct b | now rewrite IH].
Qed.

(** The scan finds the run the splice put in, whatever the cover, unless
    the cover starts with the END-MARK. *)
Lemma extract_interleave (c : Z) (rest binary : str) :
  c <> 65279 -> forallb is_binary_digit binary = true ->
  InterleaveEdition.extractBinary
    (InterleaveEdition.interleave (c :: rest)
       (InterleaveEdition.hiddenChars binary))
  = Some binary.
Proof.
  intros Hc Hb.
  rewrite interleave_cons, hiddenChars_digits by exact Hb.
  set (run := map (fun c => if c =? 48 then 8204 else 8205) binary).
  replace (c :: (8288 :: run ++ [65279]) ++ rest)
    with (c :: 8288 :: run ++ 65279 :: rest)
    by (cbn [app]; now rewrite <- app_assoc).
  rewrite extractBinary_spec.
  assert (Hend : first_position 65279 (c :: 8288 :: run ++ 65279 :: rest)
                 = Some (S (S (length run)))).
  { change (c :: 8288 :: run ++ 65279 :: rest)
      with ((c :: 8288 :: run) ++ 65279 :: rest).
    rewrite first_position_app; [reflexivity |].
    intros [H | [H | H]]; [congruence | discriminate |].
    revert H. apply run_has_no_sentinel; discriminate. }
  rewrite Hend.
  cbn [first_position]. rewrite Z.eqb_refl. cbn [option_map].
  destruct (c =? 8288) eqn:E.
  - change (0 <? S (S (length run)))%nat with true. cbv iota.
    unfold strictly_between.
    replace (S (S (length run)) - 0 - 1)%nat with (S (length run)) by lia.
    cbn [Nat.add skipn firstn]. rewrite firstn_length_app.
    cbn [marks flat_map Z.eqb Pos.eqb app].
    fold (marks 8204 8205 run). unfold run. now rewrite marks_of_run.
  - change (1 <? S (S (length run)))%nat with true. cbv iota.
    unfold strictly_between.
    replace (S (S (length run)) - 1 - 1)%nat with (length run) by lia.
    cbn [Nat.add skipn]. rewrite firstn_length_app.
    unfold run. now rewrite marks_of_run.
Qed.

Lemma concat_unit_digits_bits (text : str) :
  is_string text = true ->
  forallb is_binary_digit (concat (map unit_digits text)) = true.
Proof.
  induction text as [| u text IH]; [reflexivity |].
  cbn [is_string forallb map concat]. intros H.
  apply andb_prop in H as [Hu Ht].
  rewrite forallb_app, (IH Ht), andb_true_r.
  apply unit_digits_bits.
  unfold is_code_unit in Hu. apply andb_prop in Hu as [H0 _].
  now apply Z.leb_le.
Qed.

Lemma outcome_result (r : str) (st : AppState) :
  outcome (setResultText r (setError NoError st)) = inr r.
Proof. reflexivity. Qed.

Lemma handleEncrypt_sealed (api : CryptoJS_API) (rnd : Entropy api)
    (st : AppState) (params : CipherParams api) :
  is_empty (secretMessage st) = false ->
  is_empty (coverText st) = false ->
  valid_pin (encryptPin st) = true ->
  AES_encrypt api rnd (secretMessage st) (encryptPin st) = Some params ->
  InterleaveEdition.handleEncrypt api rnd st
  = setResultText
      (InterleaveEdition.interleave (coverText st)
         (InterleaveEdition.hiddenChars
            (textToBinary (CipherParams_toString api params))))
      (setError NoError st).
Proof.
  intros Hs Hc Hp Henc. unfold InterleaveEdition.handleEncrypt.
  rewrite Hs, Hc, Hp. cbn [negb].
  change (secretMessage (setError NoError st)) with (secretMessage st).
  change (encryptPin (setError NoError st)) with (encryptPin st).
  now rewrite Henc.
Qed.

Lemma handleDecrypt_extracted (api : CryptoJS_API) (st : AppState)
    (binary : str) :
  is_empty (inputText st) = false ->
  valid_pin (decryptPin st) = true ->
  InterleaveEdition.extractBinary (inputText st) = Some binary ->
  is_empty binary = false ->
  InterleaveEdition.handleDecrypt api st
  = tryDecrypt api (setError NoError st) binary.
Proof.
  intros Hi Hp Hx Hb. unfold InterleaveEdition.handleDecrypt.
  rewrite Hi, Hp. cbn [negb].
  change (inputText (setError NoError st)) with (inputText st).
  rewrite Hx. now destruct binary.
Qed.

(** C1 as the specification states it fails at the empty string:
    [handleEncrypt] refuses an empty message (it reports the message asking
    for one) and produces no carrier, so nothing is opened.  The cipher is
    not reached; the stand-in only fills the parameter. *)
Lemma envelope_round_trip_fails_on_empty_message :
  valid_pin [49; 50; 51; 52] = true
  /\ seal_then_open plain_api tt [] [49; 50; 51; 52] [65] = inl EnterSecret
  /\ seal_then_open plain_api tt [] [49; 50; 51; 52] [65] <> inr [].
Proof.
  repeat split. discriminate.
Qed.

(** C1, amended.  For every non-empty message [s], every valid PIN [p] and
    every non-empty cover whose first code unit is not the END-MARK, when the
    cipher library seals [s] under [p] into a Base64 envelope that it opens
    under [p] back to [s], [handleEncrypt] followed by [handleDecrypt] with
    the same PIN hands over [s]. *)
Theorem envelope_round_trip (api : CryptoJS_API) (rnd : Entropy api)
    (s p : str) (c : Z) (rest : str) :
  is_empty s = false ->
  valid_pin p = true ->
  c <> 65279 ->
  seals_and_opens api rnd s p ->
  seal_then_open api rnd s p (c :: rest) = inr s.
Proof.
  intros Hs Hp Hc (params & bytes & Henc & Hb64 & Hdec & Hutf).
  unfold is_base64 in Hb64. apply andb_prop in Hb64 as [Hne Hchars].
  apply negb_true_iff in Hne.
  destruct (base64_string _ Hchars) as [Hstr Hpair].
  set (envelope := CipherParams_toString api params) in *.
  assert (Hbin : textToBinary envelope = concat (map unit_digits envelope))
    by now apply textToBinary_units.
  assert (Hbits : forallb is_binary_digit (textToBinary envelope) = true)
    by (rewrite Hbin; now apply concat_unit_digits_bits).
  assert (Hfull : is_empty (textToBinary envelope) = false).
  { rewrite Hbin. destruct envelope as [| u envelope']; [discriminate |].
    cbn [is_string forallb] in Hstr. apply andb_prop in Hstr as [Hu _].
    pose proof (unit_digits_length u Hu) as Hlen.
    cbn [map concat]. now destruct (unit_digits u). }
  unfold seal_then_open.
  rewrite (handleEncrypt_sealed api rnd
             (mkState s (c :: rest) p [] [] [] NoError) params
             Hs eq_refl Hp Henc).
  fold envelope. cbv zeta.
  rewrite outcome_result.
  rewrite (handleDecrypt_extracted api _ (textToBinary envelope)).
  - rewrite tryDecrypt_outcome by reflexivity.
    rewrite Hbin, binaryToText_unit_digits by exact Hstr.
    cbn [decryptPin setError]. fold envelope in Hdec.
    rewrite Hdec, Hutf. now destruct s.
  - reflexivity.
  - exact Hp.
  - now apply extract_interleave.
  - exact Hfull.
Qed.

(** The condition on the cover is needed: after an END-MARK as the first
    code unit of the cover the scan finds no START-MARK before an END-MARK. *)
Lemma round_trip_lost_after_leading_end_mark :
  seal_then_open plain_api tt [104; 105] [48; 48; 48; 48] [65279; 65]
  = inl NotFound.
Proof. reflexivity. Qed.

Lemma envelope_round_trip_witness :
  seal_then_open plain_api tt [104; 105] [48; 48; 48; 48]
    [116; 101; 115; 116]
  = inr [104; 105].
Proof.
  apply (envelope_round_trip plain_api tt [104; 105] [48; 48; 48; 48]
           116 [101; 115; 116]).
  - reflexivity.
  - reflexivity.
  - discriminate.
  - exists [48; 48; 48; 48; 104; 105], [104; 105]. repeat split.
Defined.

(** * Further properties of the code *)

(** ** The bit codec on every string *)

Lemma Array_from_length_le (s : str) :
  (length (Array_from s) <= length s)%nat.
Proof.
  induction s as [| h | h l t IHt IHlt] using str_pair_ind;
    [cbn; lia | cbn; lia |].
  change (Array_from (h :: l :: t))
    with (if is_high_surrogate h && is_low_surrogate l
          then [h; l] :: Array_from t
          else [h] :: Array_from (l :: t)).
  destruct (is_high_surrogate h && is_low_surrogate l);
    cbn [length] in *; lia.
Qed.

Lemma Array_from_length_eq (s : str) :
  length (Array_from s) = length s -> no_surrogate_pair s = true.
Proof.
  induction s as [| h | h l t IHt IHlt] using str_pair_ind;
    [reflexivity | reflexivity |].
  change (Array_from (h :: l :: t))
    with (if is_high_surrogate h && is_low_surrogate l
          then [h; l] :: Array_from t
          else [h] :: Array_from (l :: t)).
  change (no_surrogate_pair (h :: l :: t))
    with (negb (is_high_surrogate h && is_low_surrogate l)
          && no_surrogate_pair (l :: t)).
  destruct (is_high_surrogate h && is_low_surrogate l).
  - pose proof (Array_from_length_le t). cbn [length]. lia.
  - cbn [length negb andb]. intros H. apply IHlt. cbn [length]. lia.
Qed.

(** [textToBinary] writes the 16 digits of the first code unit of every code
    point. *)
Lemma textToBinary_first_units (text : str) :
  textToBinary text = concat (map unit_digits (first_units text)).
Proof.
  unfold textToBinary, first_units, join.
  induction text as [| h | h l t IHt IHlt] using str_pair_ind;
    [reflexivity | reflexivity |].
  change (Array_from (h :: l :: t))
    with (if is_high_surrogate h && is_low_surrogate l
          then [h; l] :: Array_from t
          else [h] :: Array_from (l :: t)).
  destruct (is_high_surrogate h && is_low_surrogate l).
  - cbn [map concat flat_map firstn app]. now rewrite IHt.
  - cbn [map concat flat_map firstn app]. now rewrite IHlt.
Qed.

Lemma first_units_length (text : str) :
  length (first_units text) = length (Array_from text).
Proof.
  unfold first_units.
  induction text as [| h | h l t IHt IHlt] using str_pair_ind;
    [reflexivity | reflexivity |].
  change (Array_from (h :: l :: t))
    with (if is_high_surrogate h && is_low_surrogate l
          then [h; l] :: Array_from t
          else [h] :: Array_from (l :: t)).
  destruct (is_high_surrogate h && is_low_surrogate l);
    cbn [flat_map firstn app length]; now f_equal.
Qed.

Lemma first_units_string (text : str) :
  is_string text = true -> is_string (first_units text) = true.
Proof.
  unfold first_units, is_string.
  induction text as [| h | h l t IHt IHlt] using str_pair_ind;
    [reflexivity | cbn; now rewrite ?andb_true_r |].
  change (Array_from (h :: l :: t))
    with (if is_high_surrogate h && is_low_surrogate l
          then [h; l] :: Array_from t
          else [h] :: Array_from (l :: t)).
  intros H. cbn [forallb] in H.
  apply andb_prop in H as [Hh H]. pose proof H as Hlt.
  apply andb_prop in H as [Hl Ht].
  destruct (is_high_surrogate h && is_low_surrogate l);
    cbn [flat_map firstn app forallb]; rewrite Hh; cbn [andb].
  - now apply IHt.
  - apply IHlt. cbn [forallb]. exact Hlt.
Qed.

Lemma first_units_no_pair (text : str) :
  no_surrogate_pair text = true -> first_units text = text.
Proof.
  intros H. unfold first_units. rewrite (Array_from_units text H).
  clear H. induction text as [| u text IH]; [reflexivity |].
  change (u :: flat_map (firstn 1) (map (fun u => [u]) text) = u :: text).
  now rewrite IH.
Qed.

Lemma concat_unit_digits_length (text : str) :
  is_string text = true ->
  length (concat (map unit_digits text)) = (16 * length text)%nat.
Proof.
  induction text as [| u text IH]; [reflexivity |].
  cbn [is_string forallb map concat length]. intros H.
  apply andb_prop in H as [Hu Ht].
  rewrite length_app, (unit_digits_length u Hu), (IH Ht). lia.
Qed.

(** Every JavaScript string is encoded to a string of binary digits, 16 for
    each of its code points. *)
Theorem textToBinary_bit_stream (text : str) :
  is_string text = true ->
  forallb is_binary_digit (textToBinary text) = true
  /\ length (textToBinary text) = (16 * length (Array_from text))%nat
  /\ (length (Array_from text) <= length text)%nat.
Proof.
  intros Hs. pose proof (first_units_string text Hs) as Hf.
  rewrite textToBinary_first_units. repeat split.
  - now apply concat_unit_digits_bits.
  - rewrite concat_unit_digits_length by exact Hf.
    now rewrite first_units_length.
  - apply Array_from_length_le.
Qed.

Lemma textToBinary_bit_stream_witness :
  forallb is_binary_digit (textToBinary [104; 55357; 56832]) = true
  /\ length (textToBinary [104; 55357; 56832]) = 32%nat
  /\ (length (Array_from [104; 55357; 56832]%Z) <= 3)%nat.
Proof.
  exact (textToBinary_bit_stream [104; 55357; 56832] eq_refl).
Defined.

(** The round trip of the bit codec on every JavaScript string: what comes
    back is the first code unit of every code point, and that is the text
    exactly when the text has no surrogate pair. *)
Theorem bit_codec_round_trip_exactly (text : str) :
  is_string text = true ->
  binaryToText (textToBinary text) = first_units text
  /\ (binaryToText (textToBinary text) = text
      <-> no_surrogate_pair text = true).
Proof.
  intros Hs.
  assert (H : binaryToText (textToBinary text) = first_units text).
  { rewrite textToBinary_first_units.
    apply binaryToText_unit_digits. now apply first_units_string. }
  split; [exact H |]. rewrite H. split.
  - intros E. apply Array_from_length_eq.
    now rewrite <- first_units_length, E.
  - apply first_units_no_pair.
Qed.

Lemma bit_codec_round_trip_exactly_witness :
  binaryToText (textToBinary [104; 55357; 56832]) = [104; 55357].
Proof.
  exact (proj1 (bit_codec_round_trip_exactly [104; 55357; 56832] eq_refl)).
Defined.

(** [binaryToText] on any string at all. *)
Lemma binaryToText_slices (n : nat) (binary : str) :
  (length binary / 16 = n)%nat ->
  binaryToText binary
  = concat (map (fun k => fromCharCode
                            (parseInt2 (firstn 16 (skipn (16 * k) binary))))
                (seq 0 n)).
Proof.
  revert binary.
  induction n as [| n IH]; intros binary Hn.
  - apply binaryToText_short. apply Nat.div_small_iff in Hn; lia.
  - assert (Hlen : (16 <= length binary)%nat).
    { destruct (Nat.lt_ge_cases (length binary) 16) as [Hlt | Hge];
        [| exact Hge].
      rewrite Nat.div_small in Hn by exact Hlt. discriminate. }
    rewrite <- (firstn_skipn 16 binary) at 1.
    rewrite binaryToText_group by (rewrite length_firstn; lia).
    rewrite (IH (skipn 16 binary)).
    + cbn [seq map concat]. f_equal.
      rewrite <- seq_shift, map_map. f_equal.
      apply map_ext. intros k.
      rewrite skipn_skipn. do 4 f_equal. lia.
    + rewrite length_skipn.
      replace (length binary) with (length binary - 16 + 1 * 16)%nat in Hn
        by lia.
      rewrite Nat.div_add in Hn by lia. lia.
Qed.

Lemma fromCharCode_units (g : nat -> number) (ks : list nat) :
  is_string (concat (map (fun k => fromCharCode (g k)) ks)) = true
  /\ length (concat (map (fun k => fromCharCode (g k)) ks)) = length ks.
Proof.
  induction ks as [| k ks [IHs IHl]]; [split; reflexivity |].
  cbn [map concat length]. split.
  - unfold is_string in *. rewrite forallb_app, IHs, andb_true_r.
    unfold fromCharCode, ToUint16, is_code_unit. cbn [forallb].
    rewrite andb_true_r.
    destruct (g k) as [z |]; [| reflexivity].
    pose proof (Z.mod_pos_bound z 65536 ltac:(lia)).
    apply andb_true_intro. split; [apply Z.leb_le | apply Z.ltb_lt]; lia.
  - rewrite length_app, IHl. reflexivity.
Qed.

(** Whatever string it is given, [binaryToText] returns a JavaScript string
    with one code unit for every full group of 16 characters; characters that
    are not binary digits raise no error. *)
Theorem binaryToText_always_string (binary : str) :
  is_string (binaryToText binary) = true
  /\ length (binaryToText binary) = (length binary / 16)%nat.
Proof.
  rewrite (binaryToText_slices (length binary / 16) binary eq_refl).
  destruct (fromCharCode_units
              (fun k => parseInt2 (firstn 16 (skipn (16 * k) binary)))
              (seq 0 (length binary / 16))) as [Hs Hl].
  split; [exact Hs |]. now rewrite Hl, length_seq.
Qed.

(** ** The sentinel scan inside a longer text *)

Lemma first_position_split (c : Z) (l r : str) :
  first_position c (l ++ r)
  = match first_position c l with
    | Some k => Some k
    | None => option_map (Nat.add (length l)) (first_position c r)
    end.
Proof.
  induction l as [| x l IH]; cbn [app first_position length].
  - destruct (first_position c r); reflexivity.
  - destruct (x =? c); [reflexivity |]. rewrite IH.
    destruct (first_position c l); [reflexivity |].
    destruct (first_position c r); reflexivity.
Qed.

Lemma marks_app (zero one : Z) (a b : str) :
  marks zero one (a ++ b) = marks zero one a ++ marks zero one b.
Proof. apply flat_map_app. Qed.

Lemma marks_skipn_nil (zero one : Z) (n : nat) (s : str) :
  marks zero one s = [] -> marks zero one (skipn n s) = [].
Proof.
  intros H. rewrite <- (firstn_skipn n s), marks_app in H.
  now apply app_eq_nil in H.
Qed.

Lemma extract_embedded (prefix binary suffix : str) :
  forallb is_binary_digit binary = true ->
  ~ In 65279 prefix ->
  ~ In 8288 prefix \/ marks 8204 8205 prefix = [] ->
  InterleaveEdition.extractBinary
    (prefix ++ InterleaveEdition.hiddenChars binary ++ suffix)
  = Some binary.
Proof.
  intros Hb Hend Hstart.
  rewrite hiddenChars_digits by exact Hb.
  set (run := map (fun c => if c =? 48 then 8204 else 8205) binary).
  replace ((8288 :: run ++ [65279]) ++ suffix)
    with (8288 :: run ++ 65279 :: suffix)
    by (cbn [app]; now rewrite <- app_assoc).
  rewrite extractBinary_spec.
  assert (Hj : first_position 65279 (prefix ++ 8288 :: run ++ 65279 :: suffix)
               = Some (length prefix + S (length run))%nat).
  { rewrite first_position_split.
    apply first_position_none in Hend. rewrite Hend.
    change (8288 :: run ++ 65279 :: suffix)
      with ((8288 :: run) ++ 65279 :: suffix).
    rewrite first_position_app; [reflexivity |].
    intros [H | H]; [discriminate |].
    revert H. apply run_has_no_sentinel; discriminate. }
  rewrite Hj.
  assert (Hi : exists i,
             first_position 8288 (prefix ++ 8288 :: run ++ 65279 :: suffix)
             = Some i
             /\ (i <= length prefix)%nat
             /\ marks 8204 8205 (skipn (i + 1) (prefix ++ [8288])) = []).
  { rewrite first_position_split.
    destruct (first_position 8288 prefix) as [k |] eqn:Ek.
    - exists k. split; [reflexivity |].
      destruct (first_position_some _ _ _ Ek) as (Hk & _ & _).
      split; [lia |].
      destruct Hstart as [Hno | Hm].
      + apply first_position_none in Hno. congruence.
      + apply marks_skipn_nil. rewrite marks_app, Hm. reflexivity.
    - exists (length prefix). cbn [first_position].
      rewrite Z.eqb_refl. cbn [option_map]. rewrite Nat.add_0_r.
      split; [reflexivity |]. split; [lia |].
      rewrite skipn_all2 by (rewrite length_app; cbn [length]; lia).
      reflexivity. }
  destruct Hi as (i & Ei & Hle & Hm). rewrite Ei.
  replace (i <? length prefix + S (length run))%nat with true
    by (symmetry; apply Nat.ltb_lt; lia).
  f_equal. unfold strictly_between.
  replace (prefix ++ 8288 :: run ++ 65279 :: suffix)
    with ((prefix ++ [8288]) ++ run ++ 65279 :: suffix)
    by (now rewrite <- app_assoc).
  set (pre := prefix ++ [8288]) in *.
  assert (Hpre : length pre = S (length prefix))
    by (unfold pre; rewrite length_app; cbn [length]; lia).
  rewrite skipn_app.
  replace (i + 1 - length pre)%nat with 0%nat by lia.
  rewrite skipn_O.
  rewrite firstn_app.
  assert (Hlen : length (skipn (i + 1) pre) = (length prefix - i)%nat)
    by (rewrite length_skipn; lia).
  rewrite (firstn_all2 (skipn (i + 1) pre)) by (rewrite Hlen; lia).
  rewrite Hlen.
  replace (length prefix + S (length run) - i - 1 - (length prefix - i))%nat
    with (length run) by lia.
  rewrite firstn_length_app, marks_app, Hm. cbn [app].
  unfold run. now apply marks_of_run.
Qed.

(** The scan recovers the run [handleEncrypt] wrote from any text it has
    been pasted into: whatever follows the run, and whatever precedes it as
    long as that holds no END-MARK and either no START-MARK or no ZERO-MARK
    and ONE-MARK.  A second run later in the text is not read. *)
Theorem scan_finds_embedded_run (prefix binary suffix : str) :
  forallb is_binary_digit binary = true ->
  ~ In 65279 prefix ->
  ~ In 8288 prefix \/ marks 8204 8205 prefix = [] ->
  InterleaveEdition.extractBinary
    (prefix ++ InterleaveEdition.hiddenChars binary ++ suffix)
  = Some binary.
Proof. exact (extract_embedded prefix binary suffix). Qed.

Lemma scan_finds_embedded_run_witness :
  InterleaveEdition.extractBinary
    ([104; 8204; 105] ++ InterleaveEdition.hiddenChars [48; 49]
     ++ [33; 8288; 8205; 65279])
  = Some [48; 49].
Proof.
  apply (scan_finds_embedded_run [104; 8204; 105] [48; 49]
           [33; 8288; 8205; 65279]).
  - reflexivity.
  - intros [H | [H | [H | []]]]; discriminate.
  - left. intros [H | [H | [H | []]]]; discriminate.
Defined.

(** ** What the handlers do to the fields *)


(** [handleEncrypt] writes only the error and the result.  On each of its
    four failures the result is left as it was; on success the carrier
    starts with the first code unit of the cover and, once the marker
    alphabet is stripped, shows what the cover shows. *)
Theorem handleEncrypt_fields (api : CryptoJS_API) (rnd : Entropy api)
    (st : AppState) :
  (secretMessage (InterleaveEdition.handleEncrypt api rnd st)
   = secretMessage st
   /\ coverText (InterleaveEdition.handleEncrypt api rnd st) = coverText st
   /\ encryptPin (InterleaveEdition.handleEncrypt api rnd st) = encryptPin st
   /\ decryptPin (InterleaveEdition.handleEncrypt api rnd st) = decryptPin st
   /\ inputText (InterleaveEdition.handleEncrypt api rnd st) = inputText st)
  /\ match error (InterleaveEdition.handleEncrypt api rnd st) with
     | NoError =>
         firstn 1 (resultText (InterleaveEdition.handleEncrypt api rnd st))
         = firstn 1 (coverText st)
         /\ strip_markers interleave_alphabet
              (resultText (InterleaveEdition.handleEncrypt api rnd st))
            = strip_markers interleave_alphabet (coverText st)
     | EnterSecret | EnterCover | EnterPin | EncryptFailed =>
         resultText (InterleaveEdition.handleEncrypt api rnd st)
         = resultText st
     | EnterInput | NotFound | EmptyPayload | WrongKeyOrCorrupt => False
     end.
Proof.
  unfold InterleaveEdition.handleEncrypt.
  destruct (is_empty (secretMessage st)); [repeat split |].
  destruct (is_empty (coverText st)) eqn:Hc; [repeat split |].
  destruct (valid_pin (encryptPin st)); [| repeat split].
  cbn [negb].
  destruct (AES_encrypt api rnd (secretMessage (setError NoError st))
              (encryptPin (setError NoError st))) as [params |];
    [| repeat split].
  cbn [setResultText setError secretMessage coverText encryptPin decryptPin
       inputText resultText error].
  repeat split.
  - destruct (coverText st) as [| c rest]; [discriminate | reflexivity].
  - apply strip_interleave.
Qed.

(** ** The editions that append the run and scan without sentinels *)

Lemma match_marks_binary (inputText : str) :
  join (map (fun char => if str_eqb char AppendEdition.ZW_ZERO
                         then [48] else [49])
            (map (fun u => [u])
                 (filter (fun u => str_eqb [u] AppendEdition.ZW_ZERO
                                   || str_eqb [u] AppendEdition.ZW_ONE)
                         inputText)))
  = render (marks 8203 8204 inputText)
  /\ length (filter (fun u => str_eqb [u] AppendEdition.ZW_ZERO
                              || str_eqb [u] AppendEdition.ZW_ONE)
                    inputText)
     = length (marks 8203 8204 inputText).
Proof.
  unfold AppendEdition.ZW_ZERO, AppendEdition.ZW_ONE.
  induction inputText as [| u s [IHb IHe]]; [split; reflexivity |].
  unfold join in *. cbn [filter marks flat_map].
  fold (marks 8203 8204 s).
  change (str_eqb [u] [8203]) with ((u =? 8203) && true).
  change (str_eqb [u] [8204]) with ((u =? 8204) && true).
  rewrite !andb_true_r.
  destruct (u =? 8203) eqn:E0; [| destruct (u =? 8204) eqn:E1];
    cbn [orb map concat app length];
    try change (str_eqb [u] [8203]) with ((u =? 8203) && true);
    rewrite ?E0, ?IHb, ?IHe; split; reflexivity.
Qed.

(** The scan of the appending edition: every ZERO-MARK and ONE-MARK of the
    whole text, in order, wherever it stands. *)
Lemma match_marks_spec (inputText : str) :
  option_map (fun matches =>
                join (map (fun char => if str_eqb char AppendEdition.ZW_ZERO
                                       then [48] else [49])
                          matches))
             (AppendEdition.match_marks inputText)
  = match marks 8203 8204 inputText with
    | [] => None
    | bits => Some (render bits)
    end.
Proof.
  unfold AppendEdition.match_marks.
  destruct (match_marks_binary inputText) as [Hb He].
  destruct (filter (fun u => str_eqb [u] AppendEdition.ZW_ZERO
                             || str_eqb [u] AppendEdition.ZW_ONE)
                   inputText) as [| m found];
    destruct (marks 8203 8204 inputText) as [| b bits];
    try discriminate; cbn [is_empty option_map]; [reflexivity |].
  now rewrite Hb.
Qed.

(** Past its input checks, [handleDecrypt] of the appending edition reports
    [NotFound] (and empties the result) exactly when the text holds no
    ZERO-MARK and no ONE-MARK; otherwise it decrypts the bits of ALL the marks
    of the text, in order, marks of the cover and of any other payload
    included. *)
Theorem unmarked_scan_contract (api : CryptoJS_API) (st : AppState) :
  is_empty (inputText st) = false ->
  valid_pin (decryptPin st) = true ->
  match marks 8203 8204 (inputText st) with
  | [] =>
      AppendEdition.handleDecrypt api st
      = setResultText [] (setError NotFound (setError NoError st))
  | bits =>
      AppendEdition.handleDecrypt api st
      = tryDecrypt api (setError NoError st) (render bits)
  end.
Proof.
  intros Hin Hpin. unfold AppendEdition.handleDecrypt.
  rewrite Hin, Hpin. cbn [negb].
  change (inputText (setError NoError st)) with (inputText st).
  pose proof (match_marks_spec (inputText st)) as H.
  destruct (AppendEdition.match_marks (inputText st)) as [matches |];
    destruct (marks 8203 8204 (inputText st)); cbn [option_map] in H;
    try discriminate; [| reflexivity].
  injection H as H. now rewrite H.
Qed.

Lemma unmarked_scan_contract_witness :
  AppendEdition.handleDecrypt plain_api
    (mkState [] [] [] [49; 50; 51; 52] [104; 8203; 105; 8204] [] NoError)
  = tryDecrypt plain_api
      (setError NoError
         (mkState [] [] [] [49; 50; 51; 52] [104; 8203; 105; 8204] []
                  NoError))
      (render [false; true]).
Proof.
  exact (unmarked_scan_contract plain_api
           (mkState [] [] [] [49; 50; 51; 52] [104; 8203; 105; 8204] []
                    NoError)
           eq_refl eq_refl).
Defined.

(** The first edition has no failure after the scan: with no mark in the
    text it reports [NotFound]; with any mark it hands over the decoded
    groups of 16 marks without an error, the empty string when there are
    fewer than 16. *)
Theorem first_edition_reveal (st : AppState) :
  is_empty (inputText st) = false ->
  match marks 8203 8204 (inputText st) with
  | [] =>
      FirstEdition.handleDecrypt st
      = setResultText [] (setError NotFound (setError NoError st))
  | bits =>
      FirstEdition.handleDecrypt st
      = setResultText
          (map (fun k => unit_msb (group16 bits k))
               (seq 0 (length bits / 16)))
          (setError NoError st)
  end.
Proof.
  intros Hin. unfold FirstEdition.handleDecrypt. rewrite Hin.
  change (inputText (setError NoError st)) with (inputText st).
  pose proof (match_marks_spec (inputText st)) as H.
  destruct (AppendEdition.match_marks (inputText st)) as [matches |];
    destruct (marks 8203 8204 (inputText st)) as [| b bits];
    cbn [option_map] in H; try discriminate; [| reflexivity].
  injection H as H. rewrite H.
  change (bit_char b :: render bits) with (render (b :: bits)).
  now rewrite (binaryToText_groups _ (b :: bits) eq_refl).
Qed.

Lemma first_edition_reveal_witness :
  FirstEdition.handleDecrypt
    (mkState [] [] [] [] [104; 8203; 105; 8204] [] NoError)
  = setResultText []
      (setError NoError
         (mkState [] [] [] [] [104; 8203; 105; 8204] [] NoError)).
Proof.
  exact (first_edition_reveal
           (mkState [] [] [] [] [104; 8203; 105; 8204] [] NoError) eq_refl).
Defined.

Lemma append_hiddenChars_digits (binary : str) :
  forallb is_binary_digit binary = true ->
  AppendEdition.hiddenChars binary
  = map (fun c => if c =? 48 then 8203 else 8204) binary.
Proof.
  intros Hb. unfold AppendEdition.hiddenChars.
  rewrite Array_from_units.
  - clear Hb. induction binary as [| c binary IH]; [reflexivity |].
    cbn [map join concat str_eqb]. unfold join in IH. rewrite IH.
    rewrite andb_true_r. now destruct (c =? 48).
  - apply no_high_no_pair. rewrite forallb_forall in *. intros u Hu.
    specialize (Hb u Hu). unfold is_binary_digit in Hb.
    apply orb_prop in Hb as [Hb | Hb]; apply Z.eqb_eq in Hb; now subst u.
Qed.

Lemma append_marks_of_run (binary : str) :
  forallb is_binary_digit binary = true ->
  marks 8203 8204 (map (fun c => if c =? 48 then 8203 else 8204) binary)
  = map (fun c => c =? 49) binary.
Proof.
  induction binary as [| c binary IH]; [reflexivity |].
  cbn [forallb]. intros H. apply andb_prop in H as [Hc Hb].
  cbn [map marks flat_map].
  fold (marks 8203 8204
          (map (fun c => if c =? 48 then 8203 else 8204) binary)).
  rewrite (IH Hb).
  unfold is_binary_digit in Hc.
  apply orb_prop in Hc as [Hc | Hc]; apply Z.eqb_eq in Hc; now subst c.
Qed.

Lemma marker_free_no_marks (cover : str) :
  marker_free append_alphabet cover = true -> marks 8203 8204 cover = [].
Proof.
  unfold marker_free.
  induction cover as [| u cover IH]; [reflexivity |].
  cbn [forallb marks flat_map]. intros H. apply andb_prop in H as [Hu Hc].
  fold (marks 8203 8204 cover). rewrite (IH Hc).
  unfold is_marker, append_alphabet, AppendEdition.ZW_ZERO,
    AppendEdition.ZW_ONE in Hu.
  cbn [app existsb] in Hu. rewrite orb_false_r in Hu.
  apply negb_true_iff, orb_false_elim in Hu as [H0 H1].
  now rewrite H0, H1.
Qed.

(** What the scan reads in a carrier of the appending splice: the marks of
    the cover, then the digits that were hidden. *)
Lemma append_carrier_marks (cover binary : str) :
  forallb is_binary_digit binary = true ->
  render (marks 8203 8204
            (AppendEdition.append cover (AppendEdition.hiddenChars binary)))
  = render (marks 8203 8204 cover) ++ binary.
Proof.
  intros Hb. unfold AppendEdition.append.
  rewrite append_hiddenChars_digits, marks_app, append_marks_of_run
    by exact Hb.
  unfold render. rewrite map_app. f_equal.
  now apply render_unrender.
Qed.

(** ** Round trips of the appending editions *)

Lemma textToBinary_not_empty (text : str) :
  is_string text = true -> is_empty text = false ->
  is_empty (textToBinary text) = false.
Proof.
  intros Hs Hne. rewrite textToBinary_first_units.
  pose proof (first_units_string text Hs) as Hf.
  pose proof (first_units_length text) as Hl.
  destruct (first_units text) as [| u rest].
  - destruct text as [| h t]; [discriminate |].
    destruct t as [| l t']; [discriminate |].
    change (Array_from (h :: l :: t'))
      with (if is_high_surrogate h && is_low_surrogate l
            then [h; l] :: Array_from t'
            else [h] :: Array_from (l :: t')) in Hl.
    destruct (is_high_surrogate h && is_low_surrogate l); discriminate.
  - cbn [is_string forallb] in Hf. apply andb_prop in Hf as [Hu _].
    pose proof (unit_digits_length u Hu).
    cbn [map concat]. now destruct (unit_digits u).
Qed.

Lemma textToBinary_digits (text : str) :
  is_string text = true ->
  forallb is_binary_digit (textToBinary text) = true.
Proof.
  intros Hs. rewrite textToBinary_first_units.
  now apply concat_unit_digits_bits, first_units_string.
Qed.

Lemma append_handleEncrypt_sealed (api : CryptoJS_API) (rnd : Entropy api)
    (st : AppState) (params : CipherParams api) :
  is_empty (secretMessage st) = false ->
  is_empty (coverText st) = false ->
  valid_pin (encryptPin st) = true ->
  AES_encrypt api rnd (secretMessage st) (encryptPin st) = Some params ->
  AppendEdition.handleEncrypt api rnd st
  = setResultText
      (AppendEdition.append (coverText st)
         (AppendEdition.hiddenChars
            (textToBinary (CipherParams_toString api params))))
      (setError NoError st).
Proof.
  intros Hs Hc Hp Henc. unfold AppendEdition.handleEncrypt.
  rewrite Hs, Hc, Hp. cbn [negb].
  change (secretMessage (setError NoError st)) with (secretMessage st).
  change (encryptPin (setError NoError st)) with (encryptPin st).
  now rewrite Henc.
Qed.

Lemma append_handleDecrypt_binary (api : CryptoJS_API) (st : AppState)
    (binary : str) :
  is_empty (inputText st) = false ->
  valid_pin (decryptPin st) = true ->
  render (marks 8203 8204 (inputText st)) = binary ->
  is_empty binary = false ->
  AppendEdition.handleDecrypt api st
  = tryDecrypt api (setError NoError st) binary.
Proof.
  intros Hin Hpin Hb Hne. unfold AppendEdition.handleDecrypt.
  rewrite Hin, Hpin. cbn [negb].
  change (inputText (setError NoError st)) with (inputText st).
  pose proof (match_marks_spec (inputText st)) as H.
  destruct (marks 8203 8204 (inputText st)) as [| b bits];
    [subst binary; discriminate |].
  destruct (AppendEdition.match_marks (inputText st)) as [matches |];
    cbn [option_map] in H; [| discriminate].
  injection H as H. rewrite H, <- Hb. reflexivity.
Qed.

Lemma first_handleDecrypt_binary (st : AppState) (binary : str) :
  is_empty (inputText st) = false ->
  render (marks 8203 8204 (inputText st)) = binary ->
  is_empty binary = false ->
  FirstEdition.handleDecrypt st
  = setResultText (binaryToText binary) (setError NoError st).
Proof.
  intros Hin Hb Hne. unfold FirstEdition.handleDecrypt. rewrite Hin.
  change (inputText (setError NoError st)) with (inputText st).
  pose proof (match_marks_spec (inputText st)) as H.
  destruct (marks 8203 8204 (inputText st)) as [| b bits];
    [subst binary; discriminate |].
  destruct (AppendEdition.match_marks (inputText st)) as [matches |];
    cbn [option_map] in H; [| discriminate].
  injection H as H. rewrite H, <- Hb. reflexivity.
Qed.

Lemma is_empty_app_r (a b : str) :
  is_empty b = false -> is_empty (a ++ b) = false.
Proof. destruct a; [trivial | reflexivity]. Qed.

Lemma is_empty_app_l (a b : str) :
  is_empty a = false -> is_empty (a ++ b) = false.
Proof. destruct a; [discriminate | reflexivity]. Qed.

(** The appending edition round-trips: for every non-empty message, valid
    PIN and non-empty cover that holds no ZERO-MARK and no ONE-MARK, when the
    cipher library seals the message into a Base64 envelope that it opens
    back to the message, [handleEncrypt] then [handleDecrypt] with the same
    PIN hands the message over. *)
Theorem append_envelope_round_trip (api : CryptoJS_API) (rnd : Entropy api)
    (s p cover : str) :
  is_empty s = false ->
  valid_pin p = true ->
  is_empty cover = false ->
  marker_free append_alphabet cover = true ->
  seals_and_opens api rnd s p ->
  append_seal_then_open api rnd s p cover = inr s.
Proof.
  intros Hs Hp Hc Hfree (params & bytes & Henc & Hb64 & Hdec & Hutf).
  unfold is_base64 in Hb64. apply andb_prop in Hb64 as [Hne Hchars].
  apply negb_true_iff in Hne.
  destruct (base64_string _ Hchars) as [Hstr Hpair].
  set (envelope := CipherParams_toString api params) in *.
  pose proof (textToBinary_digits envelope Hstr) as Hbits.
  pose proof (textToBinary_not_empty envelope Hstr Hne) as Hfull.
  unfold append_seal_then_open.
  rewrite (append_handleEncrypt_sealed api rnd
             (mkState s cover p [] [] [] NoError) params
             Hs Hc Hp Henc).
  fold envelope. cbv zeta. rewrite outcome_result.
  rewrite (append_handleDecrypt_binary api _ (textToBinary envelope)).
  - rewrite tryDecrypt_outcome by reflexivity.
    rewrite binaryToText_textToBinary_units by assumption.
    cbn [decryptPin setError]. rewrite Hdec, Hutf. now destruct s.
  - cbn [inputText]. now apply is_empty_app_l.
  - exact Hp.
  - cbn [inputText coverText setError].
    rewrite append_carrier_marks by exact Hbits.
    now rewrite marker_free_no_marks.
  - exact Hfull.
Qed.

Lemma append_envelope_round_trip_witness :
  append_seal_then_open plain_api tt [104; 105] [48; 48; 48; 48]
    [116; 101; 115; 116]
  = inr [104; 105].
Proof.
  apply (append_envelope_round_trip plain_api tt [104; 105] [48; 48; 48; 48]
           [116; 101; 115; 116]); try reflexivity.
  exists [48; 48; 48; 48; 104; 105], [104; 105]. repeat split.
Defined.

(** The first edition, hiding then revealing a non-empty message in a
    non-empty cover: the marks of the cover come first in the bit stream and
    shift the message; with a cover that holds no mark what comes back is the
    first code unit of every code point of the message, so the message itself
    when it has no surrogate pair. *)
Theorem first_edition_round_trip (s cover : str) :
  is_string s = true ->
  is_empty s = false ->
  is_empty cover = false ->
  hide_then_reveal s cover
  = inr (binaryToText (render (marks 8203 8204 cover) ++ textToBinary s))
  /\ (marker_free append_alphabet cover = true ->
      hide_then_reveal s cover = inr (first_units s))
  /\ (marker_free append_alphabet cover = true ->
      no_surrogate_pair s = true ->
      hide_then_reveal s cover = inr s).
Proof.
  intros Hstr Hs Hc.
  pose proof (textToBinary_digits s Hstr) as Hbits.
  pose proof (textToBinary_not_empty s Hstr Hs) as Hfull.
  assert (H : hide_then_reveal s cover
              = inr (binaryToText
                       (render (marks 8203 8204 cover) ++ textToBinary s))).
  { unfold hide_then_reveal, FirstEdition.handleEncrypt.
    cbn [secretMessage coverText]. rewrite Hs, Hc.
    cbv zeta. cbn [secretMessage coverText setError].
    change (setResultText ?r (mkState ?a ?b ?c ?d ?e ?f NoError))
      with (setResultText r (setError NoError (mkState a b c d e f NoError))).
    rewrite outcome_result.
    rewrite (first_handleDecrypt_binary _
               (render (marks 8203 8204 cover) ++ textToBinary s)).
    - reflexivity.
    - cbn [inputText]. now apply is_empty_app_l.
    - cbn [inputText]. now apply append_carrier_marks.
    - now apply is_empty_app_r. }
  split; [exact H |].
  assert (H' : marker_free append_alphabet cover = true ->
               hide_then_reveal s cover = inr (first_units s)).
  { intros Hfree. rewrite H, marker_free_no_marks by exact Hfree.
    cbn [render map app]. f_equal.
    rewrite textToBinary_first_units.
    now apply binaryToText_unit_digits, first_units_string. }
  split; [exact H' |].
  intros Hfree Hpair. rewrite (H' Hfree). f_equal.
  now apply first_units_no_pair.
Qed.

Lemma first_edition_round_trip_witness :
  hide_then_reveal [104; 105] [116; 101; 115; 116] = inr [104; 105].
Proof.
  exact (proj2 (proj2 (first_edition_round_trip [104; 105]
                         [116; 101; 115; 116] eq_refl eq_refl eq_refl))
               eq_refl eq_refl).
Defined.

(** ** The cipher of the companion script *)

Import ShortcutScript.

Lemma code_unit_range (u : Z) : is_code_unit u = true <-> 0 <= u < 65536.
Proof.
  unfold is_code_unit. rewrite andb_true_iff, Z.leb_le, Z.ltb_lt. tauto.
Qed.

Lemma lxor_code_unit (a b : Z) :
  0 <= a < 65536 -> 0 <= b < 65536 -> 0 <= Z.lxor a b < 65536.
Proof.
  intros Ha Hb.
  assert (H0 : 0 <= Z.lxor a b) by (apply Z.lxor_nonneg; lia).
  split; [exact H0 |].
  destruct (Z.eq_dec (Z.lxor a b) 0) as [-> | Hne]; [lia |].
  change 65536 with (2 ^ 16). apply Z.log2_lt_pow2; [lia |].
  pose proof (Z.log2_lxor a b ltac:(lia) ltac:(lia)) as Hl.
  assert (Hla : Z.log2 a < 16).
  { destruct (Z.eq_dec a 0) as [-> | Ha0]; [reflexivity |].
    apply Z.log2_lt_pow2; [lia |]. change (2 ^ 16) with 65536. lia. }
  assert (Hlb : Z.log2 b < 16).
  { destruct (Z.eq_dec b 0) as [-> | Hb0]; [reflexivity |].
    apply Z.log2_lt_pow2; [lia |]. change (2 ^ 16) with 65536. lia. }
  lia.
Qed.

Lemma high_surrogate_shift (u : Z) :
  is_high_surrogate u = (Z.shiftr u 10 =? 54).
Proof.
  unfold is_high_surrogate. rewrite Z.shiftr_div_pow2 by lia.
  change (2 ^ 10) with 1024.
  pose proof (Z.div_mod u 1024 ltac:(lia)).
  pose proof (Z.mod_pos_bound u 1024 ltac:(lia)).
  destruct (u / 1024 =? 54) eqn:E;
    [apply Z.eqb_eq in E | apply Z.eqb_neq in E].
  - apply andb_true_intro. split; apply Z.leb_le; lia.
  - apply andb_false_iff.
    destruct (Z_lt_le_dec u 55296);
      [left; apply Z.leb_gt | right; apply Z.leb_gt]; lia.
Qed.

Lemma low_surrogate_shift (u : Z) :
  is_low_surrogate u = (Z.shiftr u 10 =? 55).
Proof.
  unfold is_low_surrogate. rewrite Z.shiftr_div_pow2 by lia.
  change (2 ^ 10) with 1024.
  pose proof (Z.div_mod u 1024 ltac:(lia)).
  pose proof (Z.mod_pos_bound u 1024 ltac:(lia)).
  destruct (u / 1024 =? 55) eqn:E;
    [apply Z.eqb_eq in E | apply Z.eqb_neq in E].
  - apply andb_true_intro. split; apply Z.leb_le; lia.
  - apply andb_false_iff.
    destruct (Z_lt_le_dec u 56320);
      [left; apply Z.leb_gt | right; apply Z.leb_gt]; lia.
Qed.

Lemma shiftr_lxor_low (u k : Z) :
  0 <= k < 1024 -> Z.shiftr (Z.lxor u k) 10 = Z.shiftr u 10.
Proof.
  intros Hk. rewrite Z.shiftr_lxor.
  rewrite (Z.shiftr_div_pow2 k) by lia.
  change (2 ^ 10) with 1024. rewrite Z.div_small by exact Hk.
  apply Z.lxor_0_r.
Qed.

Lemma ToInt32_code_unit (z : Z) : 0 <= z < 65536 -> ToInt32 (Some z) = z.
Proof.
  intros Hz. unfold ToInt32. rewrite Z.mod_small by lia. lia.
Qed.

Lemma low_key_nth (pin : str) (j : nat) :
  is_low_key pin = true -> 0 <= nth j pin 0 < 1024.
Proof.
  unfold is_low_key. revert j.
  induction pin as [| k pin IH]; intros j H.
  - destruct j; cbn; lia.
  - cbn [forallb] in H. apply andb_prop in H as [Hk Hp].
    apply andb_prop in Hk as [H0 H1].
    apply Z.leb_le in H0. apply Z.ltb_lt in H1.
    destruct j as [| j]; cbn [nth]; [lia | now apply IH].
Qed.

Lemma map_indexed_units (pin : str) (i : nat) (text : str) :
  is_string text = true ->
  length pin = 4%nat -> is_low_key pin = true ->
  join (map_indexed
          (fun c i => fromCharCode
                        (bitxor (charCodeAt c 0) (charCodeAt pin (i mod 4))))
          (map (fun u => [u]) text) i)
  = xor_units pin i text.
Proof.
  intros Hs Hlen Hkey. revert i Hs.
  induction text as [| u text IH]; intros i Hs; [reflexivity |].
  cbn [is_string forallb] in Hs. apply andb_prop in Hs as [Hu Ht].
  apply code_unit_range in Hu.
  cbn [map map_indexed join concat xor_units].
  unfold join in IH. rewrite (IH _ Ht).
  assert (Hi : (i mod 4 < length pin)%nat)
    by (rewrite Hlen; apply Nat.mod_upper_bound; lia).
  unfold charCodeAt. cbn [nth_error].
  rewrite (nth_error_nth' pin 0 Hi).
  pose proof (low_key_nth pin (i mod 4) Hkey) as Hk.
  unfold bitxor. rewrite !ToInt32_code_unit by lia.
  pose proof (lxor_code_unit u (nth (i mod 4) pin 0) ltac:(lia) ltac:(lia)).
  unfold fromCharCode, ToUint16.
  now rewrite Z.mod_small by lia.
Qed.

(** On a text without surrogate pairs and a key of four code units, the
    cipher of the script is the code-unit-wise exclusive or. *)
Lemma xor_cipher_units (text pin : str) :
  is_string text = true -> no_surrogate_pair text = true ->
  length pin = 4%nat -> is_low_key pin = true ->
  xor_cipher text pin = xor_units pin 0 text.
Proof.
  intros Hs Hp Hlen Hkey. unfold xor_cipher.
  rewrite (Array_from_units text Hp).
  now apply map_indexed_units.
Qed.

Lemma xor_units_string (pin : str) (i : nat) (s : str) :
  is_low_key pin = true -> is_string s = true ->
  is_string (xor_units pin i s) = true.
Proof.
  intros Hkey. revert i.
  induction s as [| u s IH]; intros i Hs; [reflexivity |].
  cbn [is_string forallb xor_units] in *.
  apply andb_prop in Hs as [Hu Ht]. apply code_unit_range in Hu.
  pose proof (low_key_nth pin (i mod 4) Hkey) as Hk.
  apply andb_true_intro. split.
  - apply code_unit_range. apply lxor_code_unit; lia.
  - now apply IH.
Qed.

Lemma xor_units_no_pair (pin : str) (i : nat) (s : str) :
  is_low_key pin = true -> no_surrogate_pair s = true ->
  no_surrogate_pair (xor_units pin i s) = true.
Proof.
  intros Hkey. revert i.
  induction s as [| h t IH]; intros i Hp; [reflexivity |].
  destruct t as [| l t']; [reflexivity |].
  change (negb (is_high_surrogate h && is_low_surrogate l)
          && no_surrogate_pair (l :: t') = true) in Hp.
  apply andb_prop in Hp as [Hhl Ht].
  specialize (IH (S i) Ht).
  change (xor_units pin i (h :: l :: t'))
    with (Z.lxor h (nth (i mod 4) pin 0)
          :: Z.lxor l (nth (S i mod 4) pin 0) :: xor_units pin (S (S i)) t').
  change (xor_units pin (S i) (l :: t'))
    with (Z.lxor l (nth (S i mod 4) pin 0) :: xor_units pin (S (S i)) t')
    in IH.
  change (negb (is_high_surrogate (Z.lxor h (nth (i mod 4) pin 0))
                && is_low_surrogate (Z.lxor l (nth (S i mod 4) pin 0)))
          && no_surrogate_pair
               (Z.lxor l (nth (S i mod 4) pin 0)
                :: xor_units pin (S (S i)) t') = true).
  rewrite IH, andb_true_r.
  rewrite high_surrogate_shift, low_surrogate_shift in *.
  rewrite !shiftr_lxor_low by now apply low_key_nth.
  exact Hhl.
Qed.

Lemma lxor_undone (u a b : Z) : Z.lxor (Z.lxor u a) b = u <-> a = b.
Proof.
  rewrite Z.lxor_assoc. split.
  - intros H. apply Z.lxor_eq.
    transitivity (Z.lxor u (Z.lxor u (Z.lxor a b))).
    + now rewrite <- Z.lxor_assoc, Z.lxor_nilpotent, Z.lxor_0_l.
    + rewrite H. apply Z.lxor_nilpotent.
  - intros ->. now rewrite Z.lxor_nilpotent, Z.lxor_0_r.
Qed.

Lemma xor_units_twice (p q : str) (i : nat) (s : str) :
  xor_units q i (xor_units p i s) = s
  <-> forall k, (k < length s)%nat ->
                nth ((i + k) mod 4) p 0 = nth ((i + k) mod 4) q 0.
Proof.
  revert i.
  induction s as [| u s IH]; intros i; cbn [xor_units length].
  - split; [intros _ k Hk; lia | reflexivity].
  - split.
    + intros H. injection H as Hu Hs.
      apply (proj1 (lxor_undone _ _ _)) in Hu.
      pose proof (proj1 (IH (S i)) Hs) as Hs'.
      intros [| k] Hk.
      * now rewrite Nat.add_0_r.
      * replace (i + S k)%nat with (S i + k)%nat by lia.
        apply Hs'. lia.
    + intros H. f_equal.
      * apply (proj2 (lxor_undone _ _ _)). specialize (H 0%nat ltac:(lia)).
        now rewrite Nat.add_0_r in H.
      * apply (proj2 (IH (S i))). intros k Hk.
        replace (S i + k)%nat with (i + S k)%nat by lia.
        apply H. lia.
Qed.

(** ** The decoding loop of the script *)

(** On a bit string made of full groups the loop of the script decodes as
    [binaryToText] does. *)
Lemma decode_loop_full_groups (fuel : nat) (binary : str) (i q : nat)
    (chars : list str) :
  length binary = (i + 16 * q)%nat ->
  decode_loop fuel binary i (join chars)
  = join (binaryToText_loop fuel binary i chars).
Proof.
  revert i q chars.
  induction fuel as [| fuel IH]; intros i q chars Hlen; [reflexivity |].
  cbn [decode_loop binaryToText_loop].
  destruct (i <? length binary)%nat eqn:Hi; [| reflexivity].
  apply Nat.ltb_lt in Hi.
  destruct q as [| q]; [lia |].
  unfold slice, substr.
  replace (i + 16 - i)%nat with 16%nat by lia.
  replace (length (firstn 16 (skipn i binary)) =? 16)%nat with true
    by (symmetry; apply Nat.eqb_eq;
        rewrite length_firstn, length_skipn; lia).
  rewrite <- (IH (i + 16)%nat q) by lia.
  f_equal. unfold join. rewrite concat_app. cbn [concat].
  now rewrite app_nil_r.
Qed.

Lemma decode_loop_unit_digits (text : str) :
  is_string text = true ->
  decode_loop (length (concat (map unit_digits text)))
    (concat (map unit_digits text)) 0 []
  = text.
Proof.
  intros Hs.
  change (@nil Z) with (join []) at 1.
  rewrite (decode_loop_full_groups _ _ 0 (length text))
    by (rewrite concat_unit_digits_length by exact Hs; lia).
  now apply binaryToText_unit_digits.
Qed.

(** ** A run between its sentinels *)

Lemma sentinel_positions (prefix run suffix : str) :
  ~ In 8288 prefix -> ~ In 65279 prefix -> ~ In 65279 run ->
  first_position 8288 (prefix ++ 8288 :: run ++ 65279 :: suffix)
  = Some (length prefix)
  /\ first_position 65279 (prefix ++ 8288 :: run ++ 65279 :: suffix)
     = Some (length prefix + S (length run))%nat
  /\ strictly_between (length prefix) (length prefix + S (length run))
       (prefix ++ 8288 :: run ++ 65279 :: suffix)
     = run.
Proof.
  intros Hs He Hr. repeat split.
  - now apply first_position_app.
  - rewrite first_position_split.
    apply first_position_none in He. rewrite He.
    change (8288 :: run ++ 65279 :: suffix)
      with ((8288 :: run) ++ 65279 :: suffix).
    rewrite first_position_app; [reflexivity |].
    intros [H | H]; [discriminate | tauto].
  - unfold strictly_between.
    replace (prefix ++ 8288 :: run ++ 65279 :: suffix)
      with ((prefix ++ [8288]) ++ run ++ 65279 :: suffix)
      by (now rewrite <- app_assoc).
    set (pre := prefix ++ [8288]).
    assert (Hpre : length pre = (length prefix + 1)%nat)
      by (unfold pre; rewrite length_app; reflexivity).
    rewrite <- Hpre, skipn_app, Nat.sub_diag, skipn_O.
    rewrite skipn_all2 by lia. cbn [app].
    replace (length prefix + S (length run) - length prefix - 1)%nat
      with (length run) by lia.
    apply firstn_length_app.
Qed.

Lemma run_no_high (binary : str) :
  forallb (fun u => negb (is_high_surrogate u))
          (map (fun c => if c =? 48 then 8204 else 8205) binary) = true.
Proof.
  induction binary as [| c binary IH]; [reflexivity |].
  cbn [map forallb]. rewrite IH. now destruct (c =? 48).
Qed.

(** The script reads the digits back from the marks of a run. *)
Lemma script_unmark (binary : str) :
  forallb is_binary_digit binary = true ->
  join (map (fun z => if str_eqb z InterleaveEdition.ZW_ZERO
                      then [48] else [49])
            (Array_from (map (fun c => if c =? 48 then 8204 else 8205)
                             binary)))
  = binary.
Proof.
  intros Hb.
  rewrite Array_from_units by apply no_high_no_pair, run_no_high.
  rewrite map_map. unfold InterleaveEdition.ZW_ZERO, join.
  induction binary as [| c binary IH]; [reflexivity |].
  cbn [forallb] in Hb. apply andb_prop in Hb as [Hc Hb].
  cbn [map concat]. rewrite (IH Hb).
  unfold is_binary_digit in Hc.
  apply orb_prop in Hc as [Hc | Hc]; apply Z.eqb_eq in Hc; now subst c.
Qed.

(** The decryption mode on a carrier of the encryption mode: the text that
    was hidden, through the cipher once more. *)
Lemma decryption_mode_carrier (input text pin : str) :
  is_string text = true -> no_surrogate_pair text = true ->
  ~ In 8288 (firstn 1 input) -> ~ In 65279 (firstn 1 input) ->
  decryption_mode
    (InterleaveEdition.interleave input
       (InterleaveEdition.hiddenChars (textToBinary text)))
    (Some pin)
  = Done (Some (AlertDecrypted (xor_cipher text pin)))
         (Some (xor_cipher text pin)).
Proof.
  intros Hs Hp Hstart Hend.
  pose proof (textToBinary_digits text Hs) as Hbits.
  assert (Hcarrier :
    InterleaveEdition.interleave input
      (InterleaveEdition.hiddenChars (textToBinary text))
    = firstn 1 input
      ++ 8288 :: map (fun c => if c =? 48 then 8204 else 8205)
                     (textToBinary text)
      ++ 65279 :: skipn 1 input).
  { rewrite hiddenChars_digits by exact Hbits.
    destruct input as [| c rest].
    - reflexivity.
    - rewrite interleave_cons. cbn [firstn skipn app].
      now rewrite <- app_assoc. }
  rewrite Hcarrier. clear Hcarrier.
  set (run := map (fun c => if c =? 48 then 8204 else 8205)
                  (textToBinary text)).
  destruct (sentinel_positions (firstn 1 input) run (skipn 1 input)
              Hstart Hend) as (Hi & Hj & Hbetween).
  { apply run_has_no_sentinel; discriminate. }
  unfold decryption_mode, InterleaveEdition.ZW_START, InterleaveEdition.ZW_END.
  rewrite !indexOf_first_position, Hi, Hj.
  replace (Z.of_nat (length (firstn 1 input)) =? -1) with false
    by (symmetry; apply Z.eqb_neq; lia).
  replace (Z.of_nat (length (firstn 1 input) + S (length run)) =? -1)
    with false by (symmetry; apply Z.eqb_neq; lia).
  cbn [orb].
  rewrite substring_between;
    [| lia
     | rewrite length_app; cbn [length]; rewrite length_app;
       cbn [length]; lia].
  rewrite Hbetween. unfold run. rewrite script_unmark by exact Hbits.
  rewrite textToBinary_units by exact Hp.
  now rewrite decode_loop_unit_digits by exact Hs.
Qed.

(** ** The companion script, hiding and revealing *)

Lemma encryption_mode_carrier (input secret pin : str) :
  is_empty secret = false -> length pin = 4%nat ->
  encryption_mode input (Some secret) (Some pin)
  = Done None
      (Some (InterleaveEdition.interleave input
               (InterleaveEdition.hiddenChars
                  (textToBinary (xor_cipher secret pin))))).
Proof.
  intros Hs Hlen. unfold encryption_mode.
  rewrite Hs, Hlen.
  destruct pin as [| k pin]; [discriminate | reflexivity].
Qed.

Lemma hasZW_false (input : str) :
  hasZW input = false <-> ~ In 8288 input.
Proof.
  unfold hasZW, InterleaveEdition.ZW_START.
  rewrite indexOf_first_position, <- first_position_none.
  destruct (first_position 8288 input) as [k |].
  - replace (Z.of_nat k =? -1) with false
      by (symmetry; apply Z.eqb_neq; lia).
    split; discriminate.
  - split; reflexivity.
Qed.

Lemma hasZW_carrier (input binary : str) :
  hasZW (InterleaveEdition.interleave input
           (InterleaveEdition.hiddenChars binary)) = true.
Proof.
  destruct (hasZW _) eqn:E; [reflexivity |].
  apply hasZW_false in E. exfalso. apply E.
  unfold InterleaveEdition.hiddenChars, InterleaveEdition.ZW_START.
  destruct input as [| c rest].
  - left. reflexivity.
  - rewrite interleave_cons. right. left. reflexivity.
Qed.

Lemma first_unit_not_in (input : str) (c : Z) :
  firstn 1 input <> [c] -> ~ In c (firstn 1 input).
Proof.
  destruct input as [| x rest]; cbn [firstn In]; [tauto |].
  intros H [-> | []]. now apply H.
Qed.

(** Hiding with the PIN [pin] and revealing with the PIN [q]. *)
Lemma script_hide_reveal (input secret pin q : str) :
  hasZW input = false ->
  firstn 1 input <> InterleaveEdition.ZW_END ->
  is_string secret = true -> is_empty secret = false ->
  no_surrogate_pair secret = true ->
  length pin = 4%nat -> is_low_key pin = true ->
  length q = 4%nat -> is_low_key q = true ->
  exists carrier,
    run input [Some secret; Some pin] = Done None (Some carrier)
    /\ run carrier [Some q]
       = Done (Some (AlertDecrypted
                       (xor_units q 0 (xor_units pin 0 secret))))
              (Some (xor_units q 0 (xor_units pin 0 secret))).
Proof.
  intros Hzw Hfirst Hs Hne Hp Hlen Hkey Hlenq Hkeyq.
  exists (InterleaveEdition.interleave input
            (InterleaveEdition.hiddenChars
               (textToBinary (xor_cipher secret pin)))).
  split.
  - unfold run. rewrite Hzw. cbn [negb nth].
    now apply encryption_mode_carrier.
  - unfold run. rewrite hasZW_carrier. cbn [negb nth].
    rewrite (xor_cipher_units secret pin) by assumption.
    rewrite decryption_mode_carrier.
    + rewrite xor_cipher_units; try assumption; try reflexivity.
      * now apply xor_units_string.
      * now apply xor_units_no_pair.
    + now apply xor_units_string.
    + now apply xor_units_no_pair.
    + apply hasZW_false in Hzw. intros H. apply Hzw.
      rewrite <- (firstn_skipn 1 input). apply in_or_app. now left.
    + now apply first_unit_not_in.
Qed.

(** The script round-trips: run on a text without START-MARK that does not
    start with the END-MARK, with a non-empty message without surrogate
    pairs and a PIN of four code units below U+0400 (four digits are such),
    it returns a carrier; run on that carrier with the same PIN it tells and
    returns the message. *)
Theorem script_round_trip (input secret pin : str) :
  hasZW input = false ->
  firstn 1 input <> InterleaveEdition.ZW_END ->
  is_string secret = true -> is_empty secret = false ->
  no_surrogate_pair secret = true ->
  length pin = 4%nat -> is_low_key pin = true ->
  exists carrier,
    run input [Some secret; Some pin] = Done None (Some carrier)
    /\ run carrier [Some pin]
       = Done (Some (AlertDecrypted secret)) (Some secret).
Proof.
  intros Hzw Hfirst Hs Hne Hp Hlen Hkey.
  destruct (script_hide_reveal input secret pin pin)
    as (carrier & Hrun & Hopen); try assumption.
  exists carrier. split; [exact Hrun |].
  rewrite Hopen.
  assert (E : xor_units pin 0 (xor_units pin 0 secret) = secret)
    by (apply xor_units_twice; reflexivity).
  now rewrite E.
Qed.

Lemma script_round_trip_witness :
  exists carrier,
    run [116; 101; 115; 116] [Some [104; 105]; Some [49; 50; 51; 52]]
    = Done None (Some carrier)
    /\ run carrier [Some [49; 50; 51; 52]]
       = Done (Some (AlertDecrypted [104; 105])) (Some [104; 105]).
Proof.
  apply (script_round_trip [116; 101; 115; 116] [104; 105]
           [49; 50; 51; 52]); try reflexivity.
  discriminate.
Defined.

(** The script has no check of the PIN when revealing: with any other PIN
    of four such code units it reports no failure and returns a text, and
    that text is the message exactly when the two PINs agree on every
    position the message reaches (the first [n] of the four for a message of
    [n] code units, [n < 4]). *)
Theorem script_wrong_pin (input secret pin q : str) :
  hasZW input = false ->
  firstn 1 input <> InterleaveEdition.ZW_END ->
  is_string secret = true -> is_empty secret = false ->
  no_surrogate_pair secret = true ->
  length pin = 4%nat -> is_low_key pin = true ->
  length q = 4%nat -> is_low_key q = true ->
  exists carrier revealed,
    run input [Some secret; Some pin] = Done None (Some carrier)
    /\ run carrier [Some q]
       = Done (Some (AlertDecrypted revealed)) (Some revealed)
    /\ (revealed = secret
        <-> forall k, (k < length secret)%nat ->
                      nth (k mod 4) pin 0 = nth (k mod 4) q 0).
Proof.
  intros Hzw Hfirst Hs Hne Hp Hlen Hkey Hlenq Hkeyq.
  destruct (script_hide_reveal input secret pin q)
    as (carrier & Hrun & Hopen); try assumption.
  exists carrier, (xor_units q 0 (xor_units pin 0 secret)).
  split; [exact Hrun |]. split; [exact Hopen |].
  apply (xor_units_twice pin q 0 secret).
Qed.

Lemma script_wrong_pin_witness :
  exists carrier revealed,
    run [116; 101; 115; 116] [Some [104; 105]; Some [49; 50; 51; 52]]
    = Done None (Some carrier)
    /\ run carrier [Some [49; 50; 57; 57]]
       = Done (Some (AlertDecrypted revealed)) (Some revealed)
    /\ (revealed = [104; 105]
        <-> forall k, (k < length [104; 105]%Z)%nat ->
                      nth (k mod 4) [49; 50; 51; 52] 0
                      = nth (k mod 4) [49; 50; 57; 57] 0).
Proof.
  apply (script_wrong_pin [116; 101; 115; 116] [104; 105]
           [49; 50; 51; 52] [49; 50; 57; 57]); try reflexivity.
  discriminate.
Defined.

(** ** The script and the application on each other's carriers *)

Lemma map_indexed_string (pin : str) (l : list str) (i : nat) :
  is_string
    (join (map_indexed
             (fun c i => fromCharCode
                           (bitxor (charCodeAt c 0)
                                   (charCodeAt pin (i mod 4))))
             l i)) = true.
Proof.
  revert i. induction l as [| c l IH]; intros i; [reflexivity |].
  cbn [map_indexed join concat]. unfold is_string in *.
  rewrite forallb_app. unfold join in IH. rewrite IH, andb_true_r.
  unfold fromCharCode, ToUint16, bitxor. cbn [forallb].
  rewrite andb_true_r. apply code_unit_range.
  apply Z.mod_pos_bound. lia.
Qed.

Lemma xor_cipher_string (text pin : str) :
  is_string (xor_cipher text pin) = true.
Proof. apply map_indexed_string. Qed.

Lemma interleave_split (input run : str) :
  InterleaveEdition.interleave input run
  = firstn 1 input ++ run ++ skipn 1 input.
Proof.
  destruct input as [| c rest].
  - cbn [firstn skipn app]. unfold InterleaveEdition.interleave.
    cbn [length Nat.ltb Nat.leb]. now rewrite app_nil_r.
  - apply interleave_cons.
Qed.

(** The scan of the application reads the carriers of the script: same
    marks, same sentinels, same splice.  It recovers the bit stream of the
    text the script hid, whatever the message and the four code units of the
    PIN. *)
Theorem app_scan_reads_script_carrier (input secret pin : str) :
  hasZW input = false ->
  firstn 1 input <> InterleaveEdition.ZW_END ->
  is_empty secret = false ->
  length pin = 4%nat ->
  exists carrier,
    run input [Some secret; Some pin] = Done None (Some carrier)
    /\ InterleaveEdition.extractBinary carrier
       = Some (textToBinary (xor_cipher secret pin)).
Proof.
  intros Hzw Hfirst Hne Hlen.
  exists (InterleaveEdition.interleave input
            (InterleaveEdition.hiddenChars
               (textToBinary (xor_cipher secret pin)))).
  split.
  - unfold run. rewrite Hzw. cbn [negb nth].
    now apply encryption_mode_carrier.
  - rewrite interleave_split. apply extract_embedded.
    + apply textToBinary_digits, xor_cipher_string.
    + now apply first_unit_not_in.
    + left. apply hasZW_false in Hzw. intros H. apply Hzw.
      rewrite <- (firstn_skipn 1 input). apply in_or_app. now left.
Qed.

Lemma app_scan_reads_script_carrier_witness :
  exists carrier,
    run [116; 101; 115; 116] [Some [104; 105]; Some [49; 50; 51; 52]]
    = Done None (Some carrier)
    /\ InterleaveEdition.extractBinary carrier
       = Some (textToBinary (xor_cipher [104; 105] [49; 50; 51; 52])).
Proof.
  apply (app_scan_reads_script_carrier [116; 101; 115; 116] [104; 105]
           [49; 50; 51; 52]); try reflexivity.
  discriminate.
Defined.

(** The script run on a carrier of the application reports no failure: when
    [handleEncrypt] has hidden a Base64 envelope in a cover that starts with
    neither sentinel, the script, with any PIN, tells and returns the
    envelope put through its own cipher. *)
Theorem script_reveals_app_carrier (api : CryptoJS_API) (rnd : Entropy api)
    (st : AppState) (params : CipherParams api) (q : str) :
  is_empty (secretMessage st) = false ->
  is_empty (coverText st) = false ->
  valid_pin (encryptPin st) = true ->
  AES_encrypt api rnd (secretMessage st) (encryptPin st) = Some params ->
  is_base64 (CipherParams_toString api params) = true ->
  firstn 1 (coverText st) <> InterleaveEdition.ZW_START ->
  firstn 1 (coverText st) <> InterleaveEdition.ZW_END ->
  run (resultText (InterleaveEdition.handleEncrypt api rnd st)) [Some q]
  = Done (Some (AlertDecrypted
                  (xor_cipher (CipherParams_toString api params) q)))
         (Some (xor_cipher (CipherParams_toString api params) q)).
Proof.
  intros Hs Hc Hp Henc Hb64 Hstart Hend.
  unfold is_base64 in Hb64. apply andb_prop in Hb64 as [_ Hchars].
  destruct (base64_string _ Hchars) as [Hstr Hpair].
  rewrite (handleEncrypt_sealed api rnd st params Hs Hc Hp Henc).
  cbn [resultText setResultText coverText setError].
  unfold run. rewrite hasZW_carrier. cbn [negb nth].
  apply decryption_mode_carrier; try assumption;
    now apply first_unit_not_in.
Qed.

Lemma script_reveals_app_carrier_witness :
  run (resultText
         (InterleaveEdition.handleEncrypt plain_api tt
            (mkState [104; 105] [116; 101; 115; 116] [48; 48; 48; 48]
                     [] [] [] NoError)))
      [Some [49; 50; 51; 52]]
  = Done (Some (AlertDecrypted
                  (xor_cipher [48; 48; 48; 48; 104; 105] [49; 50; 51; 52])))
         (Some (xor_cipher [48; 48; 48; 48; 104; 105] [49; 50; 51; 52])).
Proof.
  apply (script_reveals_app_carrier plain_api tt
           (mkState [104; 105] [116; 101; 115; 116] [48; 48; 48; 48]
                    [] [] [] NoError)
           [48; 48; 48; 48; 104; 105] [49; 50; 51; 52]);
    try reflexivity; discriminate.
Defined.

(** ** The companion script of the appending edition *)






(** ** The loop of the script on streams that do not end on a group *)

Lemma decode_loop_shift (fuel : nat) (binary : str) (i : nat)
    (encrypted : str) :
  decode_loop fuel binary i encrypted
  = encrypted ++ decode_loop fuel (skipn i binary) 0 [].
Proof.
  revert binary i encrypted.
  induction fuel as [| fuel IH]; intros binary i encrypted;
    cbn [decode_loop].
  - now rewrite app_nil_r.
  - rewrite length_skipn.
    destruct (i <? length binary)%nat eqn:Hi.
    + apply Nat.ltb_lt in Hi.
      replace (0 <? length binary - i)%nat with true
        by (symmetry; apply Nat.ltb_lt; lia).
      unfold substr.
      change (skipn 0 (skipn i binary)) with (skipn i binary).
      rewrite IH.
      rewrite (IH (skipn i binary) (0 + 16)%nat).
      rewrite skipn_skipn.
      replace (0 + 16 + i)%nat with (i + 16)%nat by lia.
      cbn [app]. now rewrite <- app_assoc.
    + apply Nat.ltb_ge in Hi.
      replace (0 <? length binary - i)%nat with false
        by (symmetry; apply Nat.ltb_ge; lia).
      now rewrite app_nil_r.
Qed.

Lemma decode_loop_fuel (n fuel : nat) (binary : str) (i : nat)
    (encrypted : str) :
  (length binary - i <= n)%nat -> (n <= fuel)%nat ->
  decode_loop fuel binary i encrypted = decode_loop n binary i encrypted.
Proof.
  revert fuel i encrypted.
  induction n as [| n IH]; intros fuel i encrypted Hn Hf.
  - destruct fuel as [| fuel]; [reflexivity |].
    cbn [decode_loop].
    replace (i <? length binary)%nat with false
      by (symmetry; apply Nat.ltb_ge; lia).
    reflexivity.
  - destruct fuel as [| fuel]; [lia |].
    cbn [decode_loop].
    destruct (i <? length binary)%nat; [| reflexivity].
    apply IH; lia.
Qed.

Lemma decode_loop_step (binary : str) :
  is_empty binary = false ->
  decode_loop (length binary) binary 0 []
  = fromCharCode (parseInt2 (firstn 16 binary))
    ++ decode_loop (length (skipn 16 binary)) (skipn 16 binary) 0 [].
Proof.
  intros Hne. destruct binary as [| c rest]; [discriminate |].
  set (binary := c :: rest).
  change (length binary) with (S (length rest)) at 1.
  cbn [decode_loop].
  change (0 <? length binary)%nat with true. cbv iota.
  unfold substr. change (skipn 0 binary) with binary.
  cbn [app]. rewrite decode_loop_shift.
  change (0 + 16)%nat with 16%nat. f_equal.
  apply decode_loop_fuel; rewrite length_skipn; unfold binary;
    cbn [length]; lia.
Qed.

Lemma ceil16_step (x : nat) :
  (0 < x)%nat -> ((x + 15) / 16 = S ((x - 16 + 15) / 16))%nat.
Proof.
  intros Hx. destruct (le_lt_dec 16 x) as [Hge | Hlt].
  - replace (x + 15)%nat with (x - 16 + 15 + 1 * 16)%nat by lia.
    rewrite Nat.div_add by lia. lia.
  - replace (x - 16)%nat with 0%nat by lia.
    replace (x + 15)%nat with (x - 1 + 1 * 16)%nat by lia.
    rewrite Nat.div_add by lia.
    rewrite !Nat.div_small by lia. reflexivity.
Qed.

(** A group of 1 to 16 rendered bits is read as the value of its bits. *)
Lemma fromCharCode_parse_short (chunk : list bool) :
  (1 <= length chunk <= 16)%nat ->
  fromCharCode (parseInt2 (render chunk)) = [unit_msb chunk].
Proof.
  intros Hlen.
  pose proof (fold_msb_bounds chunk 0 ltac:(lia)) as Hr.
  assert (Hp : 2 ^ Z.of_nat (length chunk) <= 2 ^ 16)
    by (apply Z.pow_le_mono_r; lia).
  change (2 ^ 16) with 65536 in Hp.
  destruct chunk as [| b chunk]; [cbn [length] in Hlen; lia |].
  cbn [render map]. rewrite parseInt2_digit_first by now destruct b.
  change (bit_char b :: map bit_char chunk) with (render (b :: chunk)).
  rewrite digits_value_render.
  unfold fromCharCode, ToUint16. fold (unit_msb (b :: chunk)).
  unfold unit_msb in *. now rewrite Z.mod_small by lia.
Qed.

Lemma decode_loop_groups (n : nat) (bits : list bool) :
  ((length bits + 15) / 16 = n)%nat ->
  decode_loop (length (render bits)) (render bits) 0 []
  = map (fun k => unit_msb (group16 bits k)) (seq 0 n).
Proof.
  revert bits.
  induction n as [| n IH]; intros bits Hn.
  - destruct bits as [| b bits]; [reflexivity |].
    rewrite ceil16_step in Hn by (cbn [length]; lia). discriminate.
  - destruct bits as [| b bits]; [discriminate |].
    set (all := b :: bits) in *.
    assert (Hpos : (0 < length all)%nat) by (unfold all; cbn [length]; lia).
    rewrite ceil16_step in Hn by exact Hpos.
    rewrite decode_loop_step by reflexivity.
    unfold render at 1. rewrite firstn_map. fold (render (firstn 16 all)).
    rewrite fromCharCode_parse_short
      by (rewrite length_firstn; lia).
    unfold render at 1 2. rewrite !skipn_map.
    fold (render (skipn 16 all)).
    rewrite (IH (skipn 16 all)) by (rewrite length_skipn; lia).
    cbn [seq map app]. f_equal.
    rewrite <- seq_shift, map_map.
    apply map_ext. intros k. unfold group16.
    rewrite skipn_skipn. do 3 f_equal. lia.
Qed.

(** The loop of the script has no check of the group length: every bit
    stream decodes to one code unit for every group of 16 bits begun, and the
    last group, when it is shorter, is read as the value of the bits it has;
    [binaryToText] drops that group. *)
Theorem script_decodes_partial_group (bits : list bool) :
  decode_loop (length (render bits)) (render bits) 0 []
  = map (fun k => unit_msb (group16 bits k))
        (seq 0 ((length bits + 15) / 16))
  /\ length (decode_loop (length (render bits)) (render bits) 0 [])
     = ((length bits + 15) / 16)%nat
  /\ length (binaryToText (render bits)) = (length bits / 16)%nat.
Proof.
  rewrite (decode_loop_groups _ bits eq_refl).
  rewrite (binaryToText_groups _ bits eq_refl).
  rewrite !length_map, !length_seq. repeat split.
Qed.

(** * The splice as [handleEncrypt] performs it, and what a seal depends on *)



(** The condition on the first character is needed: in a cover that starts
    with a surrogate pair the run stands between the two halves of the first
    character. *)
Lemma run_splits_leading_surrogate_pair :
  resultText (InterleaveEdition.handleEncrypt plain_api tt
                (mkState [104; 105] (grinning_face ++ [65])
                         [48; 48; 48; 48] [] [] [] NoError))
  = [55357]
    ++ InterleaveEdition.hiddenChars
         (textToBinary [48; 48; 48; 48; 104; 105])
    ++ [56832; 65]
  /\ first_character (grinning_face ++ [65]) = grinning_face.
Proof.
  split; reflexivity.
Qed.





